(** * dupe_detector: fingerprinting and duplicate grouping

    A shallow embedding of [tools/dupe_detector.py] and the properties of its
    frame hasher, hash combiner, strategy dispatcher, grouping engine and
    report assembler.

    Conventions of the embedding.
    - Python [int] is [Z]; [<<], [|], [&] are [Z.shiftl], [Z.lor], [Z.land].
    - Python [str] is [string] (a byte string, read as UTF-8: the bytewise
      lexicographic order [String.leb] then agrees with Python's order on
      code points).
    - A [Path] is identified with its [str()].
    - A Python [set] of strings is a [gset string]; a [dict] is an association
      list in insertion order with pairwise distinct keys (iteration order of
      a [dict] is observable in the JSON report).
    - An uncaught exception is the [Raise] case of [result].
    - OpenCV, fpcalc, hashlib, pathlib and the file system are collaborators,
      gathered in the record [World]. *)

From stdpp Require Import base list strings gmap sorting pretty.
From Stdlib Require Import ZArith QArith Ascii.

Local Open Scope Z_scope.

(** ** Data model *)

Abbreviation Path := string.

(** A decoded colour frame (rows of B, G, R pixels) and a single-channel grid. *)
Abbreviation Frame := (list (list (Z * Z * Z))).
Abbreviation Gray := (list (list Z)).

(** [class FingerprintResult] (lines 42-46). *)
Record FingerprintResult := mkFingerprintResult {
  kind : string;
  key : string;
  detail : string
}.

Global Instance FingerprintResult_eq_dec : EqDecision FingerprintResult.
Proof. solve_decision. Defined.

(** Exceptions that escape the functions modelled here. *)
Inductive exn :=
  | OSError (path : Path).

Inductive result (A : Type) :=
  | Ok (a : A)
  | Raise (e : exn).
Global Arguments Ok {A} a.
Global Arguments Raise {A} e.

Definition bind {A B} (m : result A) (f : A → result B) : result B :=
  match m with
  | Ok a => f a
  | Raise e => Raise e
  end.

Notation "'try!' x ← m ; k" := (bind m (λ x, k))
  (at level 10, x name, m at level 100, k at level 200,
   format "'[v' 'try!'  x  ←  m ;  '/' k ']'").

(** The collaborators of the script. *)
Record World := mkWorld {
  (** [Path.suffix] and [str.lower] *)
  path_suffix : Path → string;
  str_lower : string → string;
  (** [root.rglob("*")], [root.iterdir()], [p.is_file()]: what the traversal
      of a root that can be listed yields (for a root that is missing or is
      not a directory the traversal raises; such roots are not modelled) *)
  rglob : Path → list Path;
  iterdir : Path → list Path;
  is_file : Path → bool;
  (** [cv2.cvtColor(frame, COLOR_BGR2GRAY)] and
      [cv2.resize(gray, (width, height), INTER_AREA)] *)
  cvtColor_BGR2GRAY : Frame → Gray;
  resize_INTER_AREA : Gray → Z → Z → Gray;
  (** whether [cv2] and [numpy] were imported *)
  cv2_imported : bool;
  (** [cv2.VideoCapture(str(path))]: [isOpened()], the value of
      [int(cap.get(CAP_PROP_FRAME_COUNT) or 0)], and the outcome of
      [cap.set(CAP_PROP_POS_FRAMES, idx); cap.read()] ([None] when [ok] is
      false or the frame is [None]) *)
  cap_isOpened : Path → bool;
  cap_frame_count : Path → Z;
  cap_read_at : Path → Z → option Frame;
  (** [run_fpcalc(path)] (lines 67-84): the fingerprint printed by the
      Chromaprint tool, or [None]; this is the value of a call that returns
      (the outcomes of a call, an escaping exception among them, are those of
      [Fpcalc.run_fpcalc] below) *)
  run_fpcalc : Path → option string;
  (** the bytes of a file ([None]: opening or reading raises), and
      [hashlib.sha256(data).hexdigest()] *)
  read_bytes : Path → option (list Byte.byte);
  sha256_hexdigest : list Byte.byte → string
}.

(** ** Constants (lines 38-39) *)

Definition AUDIO_EXTS : gset string :=
  {[ ".mp3"; ".flac"; ".wav"; ".m4a"; ".aac"; ".ogg"; ".wma" ]}.
Definition VIDEO_EXTS : gset string :=
  {[ ".mp4"; ".mkv"; ".avi"; ".mov"; ".wmv"; ".webm"; ".flv"; ".m4v" ]}.

(** ** [find_files] (lines 49-64) *)

Definition startswith (p s : string) : bool := String.prefix p s.

Definition normalize_ext (w : World) (ext : string) : string :=
  if startswith "." ext then str_lower w ext else "." +:+ str_lower w ext.

Definition allowed_exts (w : World) (kinds custom_exts : list string) : gset string :=
  let s0 : gset string := ∅ in
  let s1 := if bool_decide ("audio" ∈ kinds) then s0 ∪ AUDIO_EXTS else s0 in
  let s2 := if bool_decide ("video" ∈ kinds) then s1 ∪ VIDEO_EXTS else s1 in
  s2 ∪ list_to_set (normalize_ext w <$> custom_exts).

Definition _iter_files (w : World) (root : Path) (recurse : bool) : list Path :=
  if recurse then rglob w root else iterdir w root.

Definition find_files (w : World) (root : Path) (recurse : bool)
    (kinds custom_exts : list string) : list Path :=
  let allowed := allowed_exts w kinds custom_exts in
  filter (λ p, is_file w p = true ∧
               (allowed = ∅ ∨ str_lower w (path_suffix w p) ∈ allowed))
         (_iter_files w root recurse).

(** ** [sha256_file] (lines 87-94)

    The file is read in chunks of 1 MiB that are fed to one hash object, which
    digests their concatenation, the content of the file. *)
Definition sha256_file (w : World) (path : Path) : result string :=
  match read_bytes w path with
  | Some data => Ok (sha256_hexdigest w data)
  | None => Raise (OSError path)
  end.

(** ** [frame_ahash] (lines 97-105) *)

(** [resized[:, 1:] > resized[:, :-1]]: in every row, each pixel but the first
    is compared with the pixel on its left. *)
Definition row_diff (row : list Z) : list bool :=
  zip_with Z.gtb (drop 1 row) (take (length row - 1) row).

Definition frame_ahash (w : World) (frame : Frame) (hash_size : Z) : Z :=
  let gray := cvtColor_BGR2GRAY w frame in
  let resized := resize_INTER_AREA w gray (hash_size + 1) hash_size in
  let diff := row_diff <$> resized in
  let bits := mjoin diff in
  fold_left (λ value bit, Z.lor (value ≪ 1) (Z.b2z bit)) bits 0.

(** ** [combine_hashes_hash_majority] (lines 108-120) *)

(** The inner loop over [range(hash_bits)] for one hash [h]. *)
Definition count_bits (hash_bits : Z) (h : Z) (counts : list Z) : list Z :=
  fold_left
    (λ counts i,
       if bool_decide (Z.land h (1 ≪ (hash_bits - 1 - Z.of_nat i)) ≠ 0)
       then alter (λ c, c + 1) i counts
       else counts)
    (seq 0 (Z.to_nat hash_bits)) counts.

(** [len(hashes) / 2] is a true division; the comparison of an [int] with it
    is exact, so it is a comparison of rationals. *)
Definition combine_hashes_hash_majority (hashes : list Z) (hash_bits : Z) : Z :=
  match hashes with
  | [] => 0
  | _ =>
    let counts := replicate (Z.to_nat hash_bits) 0 in
    let counts := fold_left (λ counts h, count_bits hash_bits h counts) hashes counts in
    let threshold : Q := (inject_Z (Z.of_nat (length hashes)) / 2)%Q in
    fold_left
      (λ combined c, Z.lor (combined ≪ 1) (Z.b2z (Qle_bool threshold (inject_Z c))))
      counts 0
  end.

(** ** [video_perceptual_hash] (lines 123-144) *)

(** The frame indices of lines 130-133. [//] is the floor division [Z.div]. *)
Definition sample_indices (frame_count sample_frames : Z) : list Z :=
  if bool_decide (frame_count > 0 ∧ sample_frames > 0) then
    let step := Z.max 1 (frame_count `div` sample_frames) in
    (λ i, i * step) <$> seqZ 0 sample_frames
  else [].

(** The loop of lines 135-140: an index that does not decode is skipped. *)
Definition sampled_hashes (w : World) (path : Path) (indices : list Z) : list Z :=
  omap (λ idx, (λ frame, frame_ahash w frame 8) <$> cap_read_at w path idx) indices.

Definition video_perceptual_hash (w : World) (path : Path) (sample_frames : Z)
    : option Z :=
  if negb (cv2_imported w) then None
  else if negb (cap_isOpened w path) then None
  else
    let frame_count := cap_frame_count w path in
    let indices := sample_indices frame_count sample_frames in
    let hashes := sampled_hashes w path indices in
    match hashes with
    | [] => None
    | _ => Some (combine_hashes_hash_majority hashes 64)
    end.

(** ** String formatting *)

Definition hex_digit (d : Z) : ascii :=
  match String.get (Z.to_nat d) "0123456789abcdef" with
  | Some c => c
  | None => "0"%char
  end.

Fixpoint hex_go (fuel : nat) (n : Z) (acc : string) : string :=
  match fuel with
  | O => acc
  | S fuel =>
    if bool_decide (n = 0) then acc
    else hex_go fuel (n `div` 16) (String (hex_digit (n `mod` 16)) acc)
  end.

Definition zfill (width : nat) (s : string) : string :=
  String.string_of_list_ascii (replicate (width - String.length s) "0"%char) +:+ s.

(** [f"{n:016x}"]: lowercase hexadecimal, zero-padded to 16 characters (the
    sign, if any, counts in the width). *)
Definition format_016x (n : Z) : string :=
  if bool_decide (0 ≤ n)
  then zfill 16 (hex_go (S (Z.to_nat (Z.log2 n))) n "")
  else "-" +:+ zfill 15 (hex_go (S (Z.to_nat (Z.log2 (- n)))) (- n) "").

(** [str(n)] for a length. ([len] counts characters and [String.length]
    bytes; they agree on the ASCII output of fpcalc.) *)
Definition str_nat (n : nat) : string := pretty n.

(** ** [fingerprint_file] (lines 147-162) *)

(** Truth value of an [Optional[str]]: [None] and [""] are false. *)
Definition truthy (o : option string) : option string :=
  match o with
  | Some s => if bool_decide (s = "") then None else Some s
  | None => None
  end.

Definition fingerprint_file (w : World) (path : Path) (kinds : list string)
    (sample_frames : Z) : result FingerprintResult :=
  let ext := str_lower w (path_suffix w path) in
  let is_audio := bool_decide (ext ∈ AUDIO_EXTS) && bool_decide ("audio" ∈ kinds) in
  let is_video := bool_decide (ext ∈ VIDEO_EXTS) && bool_decide ("video" ∈ kinds) in
  match (if is_audio then truthy (run_fpcalc w path) else None) with
  | Some fp =>
    Ok (mkFingerprintResult "audio" fp
          ("fpcalc:" +:+ str_nat (String.length fp) +:+ "chars"))
  | None =>
    match (if is_video then video_perceptual_hash w path sample_frames else None) with
    | Some vhash =>
      Ok (mkFingerprintResult "video" ("vhash:" +:+ format_016x vhash)
            ("vhash:" +:+ format_016x vhash))
    | None =>
      try! fallback ← sha256_file w path;
      Ok (mkFingerprintResult "fallback" fallback
            ("sha256:" +:+ String.substring 0 12 fallback +:+ "..."))
    end
  end.

(** ** [find_duplicates] (lines 165-171) *)

Abbreviation Item := (Path * FingerprintResult)%type.
Abbreviation Groups := (list (string * list Item)).

(** [groups[k].append(item)] on a [defaultdict(list)]: an existing key keeps
    its place, a new key is added last. *)
Fixpoint groups_append (groups : Groups) (k : string) (item : Item) : Groups :=
  match groups with
  | [] => [(k, [item])]
  | (k', items) :: rest =>
    if bool_decide (k' = k) then (k', items ++ [item]) :: rest
    else (k', items) :: groups_append rest k item
  end.

(** The loop of lines 167-169, from the dictionary accumulated so far. *)
Fixpoint find_duplicates_loop (w : World) (files : list Path) (kinds : list string)
    (sample_frames : Z) (groups : Groups) : result Groups :=
  match files with
  | [] => Ok groups
  | p :: files =>
    try! fp ← fingerprint_file w p kinds sample_frames;
    find_duplicates_loop w files kinds sample_frames (groups_append groups (key fp) (p, fp))
  end.

Definition find_duplicates (w : World) (files : list Path) (kinds : list string)
    (sample_frames : Z) : result Groups :=
  try! groups ← find_duplicates_loop w files kinds sample_frames [];
  Ok (filter (λ kv, (1 < length kv.2)%nat) groups).

(** ** [sorted(xs, key=...)] on string keys

    Python's [sorted] is a stable sort; it is modelled by a stable insertion
    sort ([x] goes in front of the first element whose key is not smaller). *)
Section sorted.
Context {A : Type} (sort_key : A → string).

Fixpoint sorted_insert (x : A) (l : list A) : list A :=
  match l with
  | [] => [x]
  | y :: l' =>
    if String.leb (sort_key x) (sort_key y) then x :: l
    else y :: sorted_insert x l'
  end.

Definition sorted (l : list A) : list A := foldr sorted_insert [] l.
End sorted.

(** ** [format_report] (lines 174-180) *)

Definition newline : string := String "010"%char "".

Definition item_line (it : Item) : string :=
  "  - " +:+ it.1 +:+ " [" +:+ kind it.2 +:+ " " +:+ detail it.2 +:+ "]".

Definition group_lines (kv : string * list Item) : list string :=
  ("hash=" +:+ kv.1 +:+ " (x" +:+ str_nat (length kv.2) +:+ ")")
    :: (item_line <$> sorted fst kv.2).

Definition format_report (dupes : Groups) : string :=
  let lines := mjoin (group_lines <$> sorted fst dupes) in
  String.concat newline lines.

(** ** [main] (lines 183-229) *)

(** The value handed to [json.dumps], which keeps the order of lists and of
    dictionary entries. *)
Local Unset Elimination Schemes.
Inductive json :=
  | JStr (s : string)
  | JBool (b : bool)
  | JList (l : list json)
  | JDict (fields : list (string * json)).
Local Set Elimination Schemes.

Definition item_json (it : Item) : json :=
  JDict [("path", JStr it.1); ("kind", JStr (kind it.2)); ("detail", JStr (detail it.2))].

Definition group_json (kv : string * list Item) : json :=
  JDict [("hash", JStr kv.1); ("items", JList (item_json <$> kv.2))].

(** The [payload] of lines 205-222. *)
Definition json_payload (root : Path) (no_recurse : bool) (dupes : Groups) : json :=
  JDict [("root", JStr root);
         ("recurse", JBool (negb no_recurse));
         ("duplicates", JList (group_json <$> dupes))].

(** The parsed command line: [kinds] and [custom_exts] are the lists of lines
    196-197. *)
Record Args := mkArgs {
  arg_root : Path;
  arg_no_recurse : bool;
  arg_kinds : list string;
  arg_custom_exts : list string;
  arg_sample_frames : Z;
  arg_json : bool
}.

Inductive Printed :=
  | Text (s : string)
  | Json (payload : json).

(** How a run ends: something is printed and [main] returns a status, or
    [parser.error] exits, or an exception escapes. The exceptions of the
    model are those of reading a file; a traversal that raises and a call of
    [run_fpcalc] that raises are not runs of this model. *)
Inductive Outcome :=
  | Returned (out : Printed) (status : Z)
  | ParserError
  | Uncaught (e : exn).

Definition main (w : World) (args : Args) : Outcome :=
  if negb (cv2_imported w) then ParserError
  else
    let files := find_files w (arg_root args) (negb (arg_no_recurse args))
                   (arg_kinds args) (arg_custom_exts args) in
    match files with
    | [] => Returned (Text "No matching files found.") 0
    | _ =>
      match find_duplicates w files (arg_kinds args) (arg_sample_frames args) with
      | Raise e => Uncaught e
      | Ok dupes =>
        if arg_json args then
          Returned (Json (json_payload (arg_root args) (arg_no_recurse args) dupes)) 0
        else
          match dupes with
          | [] => Returned (Text "No duplicates detected.") 0
          | _ => Returned (Text (format_report dupes)) 0
          end
      end
    end.

(** ** A concrete world for examples

    A POSIX [Path.suffix], an ASCII [str.lower], and a small file system. *)

Definition ascii_lower (c : ascii) : ascii :=
  let n := N_of_ascii c in
  if ((65 <=? n) && (n <=? 90))%N then ascii_of_N (n + 32) else c.

Fixpoint lower (s : string) : string :=
  match s with
  | EmptyString => EmptyString
  | String c s => String (ascii_lower c) (lower s)
  end.

(** The suffix of the last path component: from its last dot, unless that dot
    is its first or its last character. *)
Fixpoint suffix_go (s : string) (seen : nat) (cur : option string) : string :=
  match s with
  | EmptyString =>
    match cur with
    | Some suf => if bool_decide (1 < String.length suf)%nat then suf else ""
    | None => ""
    end
  | String c s' =>
    if bool_decide (c = "/"%char) then suffix_go s' 0 None
    else if bool_decide (c = "."%char) then
      suffix_go s' (S seen) (if bool_decide (seen = 0)%nat then None else Some s)
    else suffix_go s' (S seen) cur
  end.

Definition posix_suffix (p : Path) : string := suffix_go p 0 None.

Definition example_gray (px : Z * Z * Z) : Z :=
  (114 * px.1.1 + 587 * px.1.2 + 299 * px.2 + 500) `div` 1000.

Definition example_bytes (p : Path) : option (list Byte.byte) :=
  if bool_decide (p = "vault/locked.bin") then None
  else if bool_decide (p ∈ ["lib/c.mp4"; "lib/e.bin"]) then Some [Byte.x61; Byte.x62; Byte.x63]
  else Some (String.list_byte_of_string p).

(** Stands in for SHA-256 in the examples: the bytes themselves, tagged. *)
Definition example_digest (data : list Byte.byte) : string :=
  "digest:" +:+ String.string_of_list_byte data.

(** The frames of the one decodable video, 8 rows of 9 pixels. *)
Definition example_frame (idx : Z) : Frame :=
  (λ r, (λ c, let v := (r * c + idx * (r + c)) `mod` 7 in (v, v, v)) <$> seqZ 0 9) <$> seqZ 0 8.

Definition example_world : World := {|
  path_suffix := posix_suffix;
  str_lower := lower;
  rglob root :=
    if bool_decide (root = "vault") then ["vault/locked.bin"; "vault/x.bin"]
    else ["lib/a.mp3"; "lib/b.MP3"; "lib/c.mp4"; "lib/d.mp4"; "lib/e.bin";
          "lib/sub"; "lib/sub/f.txt"];
  iterdir root :=
    if bool_decide (root = "vault") then ["vault/locked.bin"; "vault/x.bin"]
    else ["lib/a.mp3"; "lib/b.MP3"; "lib/c.mp4"; "lib/d.mp4"; "lib/e.bin"; "lib/sub"];
  is_file p := negb (bool_decide (p = "lib/sub"));
  cvtColor_BGR2GRAY frame := (λ row : list (Z * Z * Z), example_gray <$> row) <$> frame;
  resize_INTER_AREA gray _ _ := gray;
  cv2_imported := true;
  cap_isOpened p := bool_decide (p ∈ ["lib/c.mp4"; "lib/d.mp4"]);
  cap_frame_count p := if bool_decide (p = "lib/d.mp4") then 24 else 0;
  cap_read_at p idx :=
    if bool_decide (p = "lib/d.mp4" ∧ 0 ≤ idx < 24) then Some (example_frame idx) else None;
  run_fpcalc p :=
    if bool_decide (p ∈ ["lib/a.mp3"; "lib/b.MP3"]) then Some "AQADtEmS" else None;
  read_bytes := example_bytes;
  sha256_hexdigest := example_digest
|}.

(** The same world, with directories enumerated in the opposite order. *)
Definition example_world_reversed : World := {|
  path_suffix := path_suffix example_world;
  str_lower := str_lower example_world;
  rglob root := reverse (rglob example_world root);
  iterdir root := reverse (iterdir example_world root);
  is_file := is_file example_world;
  cvtColor_BGR2GRAY := cvtColor_BGR2GRAY example_world;
  resize_INTER_AREA := resize_INTER_AREA example_world;
  cv2_imported := cv2_imported example_world;
  cap_isOpened := cap_isOpened example_world;
  cap_frame_count := cap_frame_count example_world;
  cap_read_at := cap_read_at example_world;
  run_fpcalc := run_fpcalc example_world;
  read_bytes := read_bytes example_world;
  sha256_hexdigest := sha256_hexdigest example_world
|}.

(** ** Auxiliary definitions for the statements *)

(** One step of packing bits most significant first: shift, then or. *)
Definition pack_step {A : Type} (f : A → bool) (value : Z) (x : A) : Z :=
  Z.lor (value ≪ 1) (Z.b2z (f x)).

Definition pack_msb_first (bits : list bool) : Z := fold_left (pack_step id) bits 0.

(** The bits as the specification words them: 1 when the left pixel of a
    pair is strictly greater than the right one. *)
Definition left_greater_bits (resized : Gray) : list bool :=
  mjoin ((λ row, zip_with Z.gtb (take (length row - 1) row) (drop 1 row)) <$> resized).

(** The fingerprints of a list of files, in order; the first failure wins. *)
Fixpoint fingerprint_all (w : World) (files : list Path) (kinds : list string)
    (sample_frames : Z) : result (list Item) :=
  match files with
  | [] => Ok []
  | p :: files =>
    try! fp ← fingerprint_file w p kinds sample_frames;
    try! rest ← fingerprint_all w files kinds sample_frames;
    Ok ((p, fp) :: rest)
  end.

(** Accumulation of already computed items into a dictionary. *)
Definition group_items (items : list Item) (groups : Groups) : Groups :=
  fold_left (λ groups it, groups_append groups (key it.2) it) items groups.

(** The items that carry the key [k], in input order. *)
Definition items_with_key (k : string) (items : list Item) : list Item :=
  filter (λ it, key it.2 = k) items.

(** [groups.get(k, [])] *)
Fixpoint lookup_group (k : string) (groups : Groups) : list Item :=
  match groups with
  | [] => []
  | (k', items) :: rest => if bool_decide (k' = k) then items else lookup_group k rest
  end.

(** The keys carried by more than one item, in order of first appearance. *)
Definition dupe_keys (items : list Item) : list string :=
  filter (λ k, (1 < length (items_with_key k items))%nat) (group_items items []).*1.

(** The number of hashes whose bit of weight [2 ^ j] is set. *)
Definition votes (hashes : list Z) (j : Z) : Z :=
  Z.of_nat (length (filter (λ h, Z.testbit h j = true) hashes)).


(** ** Reading hexadecimal back, for the statements

    [int(s, 16)] on a string of digits [0-9a-f]. *)
Definition hex_digit_value (c : ascii) : Z :=
  let n := Z.of_N (N_of_ascii c) in
  if bool_decide (48 ≤ n ≤ 57) then n - 48
  else if bool_decide (97 ≤ n ≤ 102) then n - 87
  else 0.

Fixpoint int_16_go (s : string) (acc : Z) : Z :=
  match s with
  | EmptyString => acc
  | String c s => int_16_go s (16 * acc + hex_digit_value c)
  end.

Definition int_16 (s : string) : Z := int_16_go s 0.

(** The distinct elements of a list, in order of first appearance. *)
Fixpoint first_seen (l : list string) : list string :=
  match l with
  | [] => []
  | k :: l => k :: filter (λ x, x ≠ k) (first_seen l)
  end.

(** ** Reading the JSON payload back, for the statements *)

(** [d[name]] on a dictionary, [None] if [name] is not one of its keys. *)
Fixpoint json_assoc (name : string) (fields : list (string * json)) : option json :=
  match fields with
  | [] => None
  | (k, v) :: fields => if bool_decide (k = name) then Some v else json_assoc name fields
  end.

Definition json_get (name : string) (j : json) : option json :=
  match j with
  | JDict fields => json_assoc name fields
  | _ => None
  end.

Definition json_string (j : json) : option string :=
  match j with
  | JStr s => Some s
  | _ => None
  end.

(** [[g["hash"] for g in payload["duplicates"]]] *)
Definition json_duplicate_hashes (payload : json) : list string :=
  match json_get "duplicates" payload with
  | Some (JList groups) => omap (λ g, json_get "hash" g ≫= json_string) groups
  | _ => []
  end.

(** [[[it["path"] for it in g["items"]] for g in payload["duplicates"]]] *)
Definition json_duplicate_paths (payload : json) : list (list string) :=
  match json_get "duplicates" payload with
  | Some (JList groups) =>
    omap (λ g, match json_get "items" g with
               | Some (JList its) => Some (omap (λ it, json_get "path" it ≫= json_string) its)
               | _ => None
               end) groups
  | _ => []
  end.

(** The groups and their entries in the order in which [format_report]
    prints them. *)
Definition report_entries (dupes : Groups) : Groups :=
  (λ kv, (kv.1, sorted fst kv.2)) <$> sorted fst dupes.

(** ** The loop of [sha256_file] (lines 90-94)

    [fh.read(n)] hands out the next [n] bytes of what is left of the file,
    fewer at its end; the hash object holds the bytes fed to it so far. The
    loop ends at the first empty chunk; [fuel] bounds the number of reads. *)
Fixpoint read_chunks (fuel n : nat) (rest fed : list Byte.byte) : list Byte.byte :=
  match fuel with
  | O => fed
  | S fuel =>
    match take n rest with
    | [] => fed
    | chunk => read_chunks fuel n (drop n rest) (fed ++ chunk)
    end
  end.

Definition sha256_file_chunked (w : World) (path : Path) : result string :=
  match read_bytes w path with
  | Some data =>
    Ok (sha256_hexdigest w
          (read_chunks (S (length data)) (Z.to_nat (1024 * 1024)) data []))
  | None => Raise (OSError path)
  end.

(** ** [run_fpcalc] (lines 67-84)

    [shutil.which], [subprocess.run(..., check=True)], [str.splitlines],
    [str.strip] and [str] of an integer are collaborators. A call of
    [subprocess.run] completes with the text of the standard output, or
    raises [CalledProcessError] (the only exception that lines 79-80 catch),
    or raises another exception (the tool cannot be executed, the output
    cannot be decoded), which is named by its text. *)
Module Fpcalc.

Inductive run_result :=
  | Completed (stdout : string)
  | CalledProcessError
  | OtherException (exc : string).

(** What a call of [run_fpcalc] does: it returns a value, or an exception
    escapes from it. *)
Inductive outcome :=
  | Returns (fp : option string)
  | Escapes (exc : string).

Record Shell := mkShell {
  which : string → option string;
  subprocess_run : list string → run_result;
  splitlines : string → list string;
  strip : string → string;
  str_int : Z → string
}.

(** [line.split("=", 1)]: the text before the first [=] and, if there is one,
    the text after it. *)
Fixpoint split_eq_1 (line : string) : string * option string :=
  match line with
  | EmptyString => (EmptyString, None)
  | String c rest =>
    if bool_decide (c = "="%char) then (EmptyString, Some rest)
    else let '(before, after) := split_eq_1 rest in (String c before, after)
  end.

(** The loop of lines 81-84. Element [1] of the split exists for a line that
    starts with [FINGERPRINT=]. *)
Fixpoint first_fingerprint (sh : Shell) (lines : list string) : option string :=
  match lines with
  | [] => None
  | line :: lines =>
    if startswith "FINGERPRINT=" line
    then Some (strip sh (default "" (split_eq_1 line).2))
    else first_fingerprint sh lines
  end.

Definition run_fpcalc (sh : Shell) (path : Path) (length : Z) : outcome :=
  match which sh "fpcalc" with
  | None => Returns None
  | Some fpcalc =>
    if bool_decide (fpcalc = "") then Returns None
    else
      match subprocess_run sh [fpcalc; "-length"; str_int sh length; path] with
      | CalledProcessError => Returns None
      | OtherException exc => Escapes exc
      | Completed stdout => Returns (first_fingerprint sh (splitlines sh stdout))
      end
  end.

End Fpcalc.

(** * Properties *)

(** ** Packing bits, most significant first

    The loops [value = (value << 1) | bit] of [frame_ahash] and
    [combine_hashes_hash_majority] are the same left fold. *)
Section pack.
Context {A : Type} (f : A → bool).
Local Abbreviation pack_step := (pack_step f).

Lemma pack_step_testbit value x n :
  0 ≤ n →
  Z.testbit (pack_step value x) n =
    if bool_decide (n = 0) then f x else Z.testbit value (n - 1).
Proof.
  intros Hn. unfold pack_step. rewrite Z.lor_spec.
  case_bool_decide as H0.
  - subst n. rewrite Z.shiftl_spec_low by lia.
    destruct (f x); reflexivity.
  - rewrite Z.shiftl_spec by lia.
    replace (Z.testbit (Z.b2z (f x)) n) with false; [apply orb_false_r|].
    destruct (f x); simpl.
    + symmetry. apply (Z.bits_above_log2 1); simpl; lia.
    + symmetry. apply Z.bits_0.
Qed.

Lemma pack_testbit_high l value n :
  Z.of_nat (length l) ≤ n →
  Z.testbit (fold_left pack_step l value) n = Z.testbit value (n - Z.of_nat (length l)).
Proof.
  revert value n. induction l as [|x l IH]; intros value n Hn; simpl in *.
  - f_equal. lia.
  - rewrite IH by lia. rewrite pack_step_testbit by lia.
    case_bool_decide; [lia|]. f_equal. lia.
Qed.

Lemma pack_testbit_low l value i x :
  l !! i = Some x →
  Z.testbit (fold_left pack_step l value) (Z.of_nat (length l - 1 - i)) = f x.
Proof.
  revert value i. induction l as [|y l IH]; intros value i Hi; [done|].
  destruct i as [|i]; simpl in *.
  - simplify_eq. rewrite pack_testbit_high by lia.
    rewrite pack_step_testbit by lia.
    case_bool_decide; [done|lia].
  - apply lookup_lt_Some in Hi as Hlt.
    replace (length l - 0 - S i)%nat with (length l - 1 - i)%nat by lia.
    by apply IH.
Qed.

Lemma pack_nonneg l value : 0 ≤ value → 0 ≤ fold_left pack_step l value.
Proof.
  revert value. induction l as [|x l IH]; intros value Hv; simpl; [done|].
  apply IH. unfold pack_step. apply Z.lor_nonneg. split.
  - apply Z.shiftl_nonneg. done.
  - destruct (f x); simpl; lia.
Qed.
End pack.

(** ** The frame hasher *)

Lemma row_diff_length (n : nat) (row : list Z) :
  length row = S n → length (row_diff row) = n.
Proof.
  intros Hlen. unfold row_diff.
  rewrite length_zip_with, length_drop, length_take. lia.
Qed.

Lemma row_diff_lookup (row : list Z) (c : nat) (a b : Z) :
  row !! c = Some a → row !! S c = Some b →
  row_diff row !! c = Some (bool_decide (a < b)).
Proof.
  intros Ha Hb. unfold row_diff.
  apply lookup_lt_Some in Hb as Hlt.
  rewrite lookup_zip_with, lookup_drop, lookup_take_lt by lia.
  simpl. rewrite Hb, Ha. simpl. f_equal.
  unfold Z.gtb. case_bool_decide as Hab.
  - by rewrite (proj2 (Z.compare_gt_iff b a)) by done.
  - destruct (b ?= a) eqn:Hc; try done.
    apply Z.compare_gt_iff in Hc. lia.
Qed.

Lemma frame_ahash_pack (w : World) (frame : Frame) (hash_size : Z) :
  frame_ahash w frame hash_size =
  pack_msb_first
    (mjoin (row_diff <$>
       resize_INTER_AREA w (cvtColor_BGR2GRAY w frame) (hash_size + 1) hash_size)).
Proof. reflexivity. Qed.

(** C1, as amended. For a resized grid of [n] rows of [n + 1] pixels, the bit
    of [frame_ahash] for the pair of columns [c], [c + 1] of row [r] is the
    bit of weight [2 ^ (n * n - 1 - (r * n + c))] (row-major, most significant
    first), and it is 1 exactly when the RIGHT pixel is strictly greater than
    the LEFT one; the hash has no other bits. *)
Theorem frame_ahash_right_greater (w : World) (frame : Frame) (n : nat)
    (r c : nat) (row : list Z) (a b : Z) :
  let resized :=
    resize_INTER_AREA w (cvtColor_BGR2GRAY w frame) (Z.of_nat n + 1) (Z.of_nat n) in
  length resized = n →
  Forall (λ row, length row = S n) resized →
  resized !! r = Some row → row !! c = Some a → row !! S c = Some b →
  Z.testbit (frame_ahash w frame (Z.of_nat n)) (Z.of_nat (n * n - 1 - (r * n + c)))
    = bool_decide (a < b)
  ∧ 0 ≤ frame_ahash w frame (Z.of_nat n) < 2 ^ Z.of_nat (n * n).
Proof.
  intros resized Hrows Hcols Hr Ha Hb.
  rewrite frame_ahash_pack. fold resized. clearbody resized.
  assert (Hall : Forall (λ l : list bool, length l = n) (row_diff <$> resized)).
  { rewrite Forall_fmap. eapply Forall_impl; [exact Hcols|].
    intros l Hl. by apply row_diff_length. }
  assert (Hlen : length (mjoin (row_diff <$> resized)) = (n * n)%nat).
  { rewrite length_join, (sum_list_fmap_same n) by done.
    by rewrite length_fmap, Hrows. }
  assert (Hc : (c < n)%nat).
  { apply lookup_lt_Some in Hb. rewrite Forall_forall in Hcols.
    specialize (Hcols row (list_elem_of_lookup_2 _ _ _ Hr)). lia. }
  split.
  - unfold pack_msb_first. rewrite <- Hlen.
    rewrite (pack_testbit_low id _ 0 (r * n + c) (bool_decide (a < b))); [done|].
    apply join_lookup_Some_same_length'; [done..|].
    exists (row_diff row). split.
    + by rewrite list_lookup_fmap, Hr.
    + by apply row_diff_lookup.
  - unfold pack_msb_first. split; [by apply pack_nonneg|].
    set (v := fold_left _ _ _).
    assert (0 ≤ v) as Hv by (by apply pack_nonneg).
    destruct (decide (v = 0)) as [->|Hne]; [by apply Z.pow_pos_nonneg; lia|].
    apply Z.log2_lt_pow2; [lia|].
    destruct (decide (Z.log2 v < Z.of_nat (n * n))) as [|Hge]; [done|exfalso].
    assert (Z.testbit v (Z.log2 v) = true) as Hbit by (apply Z.bit_log2; lia).
    unfold v in Hbit at 1. rewrite pack_testbit_high in Hbit by lia.
    by rewrite Z.bits_0 in Hbit.
Qed.

(** The theorem applied to a grid of two rows of three pixels, at the last
    pair of the first row. *)
Lemma frame_ahash_right_greater_witness :
  let frame : Frame :=
    [[(9, 9, 9); (4, 4, 4); (6, 6, 6)]; [(1, 1, 1); (2, 2, 2); (3, 3, 3)]] in
  Z.testbit (frame_ahash example_world frame 2) 2 = true
  ∧ 0 ≤ frame_ahash example_world frame 2 < 2 ^ 4.
Proof.
  intros frame.
  apply (frame_ahash_right_greater example_world
           [[(9, 9, 9); (4, 4, 4); (6, 6, 6)]; [(1, 1, 1); (2, 2, 2); (3, 3, 3)]]
           2 0 1 [9; 4; 6] 4 6).
  - reflexivity.
  - repeat constructor.
  - reflexivity.
  - reflexivity.
  - reflexivity.
Defined.

(** C1, as stated, fails: for the one pair (5, 3), whose left pixel is the
    greater, [frame_ahash] yields the bit 0 where the claim asks for 1. *)
Lemma frame_ahash_left_greater_counterexample :
  let frame : Frame := [[(5, 5, 5); (3, 3, 3)]] in
  let resized :=
    resize_INTER_AREA example_world (cvtColor_BGR2GRAY example_world frame) (1 + 1) 1 in
  resized = [[5; 3]]
  ∧ pack_msb_first (left_greater_bits resized) = 1
  ∧ frame_ahash example_world frame 1 = 0
  ∧ frame_ahash example_world frame 1 ≠ pack_msb_first (left_greater_bits resized).
Proof. vm_compute. repeat split; congruence. Qed.

(** ** The hash combiner *)

Lemma land_bit_nonzero (h k : Z) :
  0 ≤ k → Z.land h (1 ≪ k) ≠ 0 ↔ Z.testbit h k = true.
Proof.
  intros Hk. rewrite Z.shiftl_1_l. split.
  - intros Hne. destruct (Z.testbit h k) eqn:Hbit; [done|].
    exfalso. apply Hne. apply Z.bits_inj_0. intros m.
    rewrite Z.land_spec.
    destruct (decide (m = k)) as [->|Hmk]; [by rewrite Hbit|].
    destruct (decide (0 ≤ m)) as [Hm|Hm].
    + rewrite Z.pow2_bits_false by lia. apply andb_false_r.
    + rewrite (Z.testbit_neg_r (2 ^ k)) by lia. apply andb_false_r.
  - intros Hbit Hz.
    assert (Z.testbit (Z.land h (2 ^ k)) k = true) as Hl.
    { rewrite Z.land_spec, Hbit, Z.pow2_bits_true; done. }
    by rewrite Hz, Z.bits_0 in Hl.
Qed.

Lemma count_bits_lookup (hash_bits h : Z) (counts : list Z) (i : nat) :
  (i < Z.to_nat hash_bits)%nat →
  count_bits hash_bits h counts !! i =
    (λ c, c + Z.b2z (Z.testbit h (hash_bits - 1 - Z.of_nat i))) <$> counts !! i.
Proof.
  intros Hi. unfold count_bits.
  set (step := λ (counts : list Z) (i : nat), if bool_decide _ then _ else _).
  assert (Hgo : ∀ (js : list nat) (cs : list Z), NoDup js →
    Forall (λ j, j < Z.to_nat hash_bits)%nat js →
    fold_left step js cs !! i =
      (λ c, if bool_decide (i ∈ js)
            then c + Z.b2z (Z.testbit h (hash_bits - 1 - Z.of_nat i)) else c) <$> cs !! i).
  { induction js as [|j js IH]; intros cs Hnd Hlt; simpl.
    - by destruct (cs !! i).
    - apply NoDup_cons in Hnd as [Hj Hnd]. apply Forall_cons in Hlt as [Hjlt Hlt].
      rewrite IH by done. unfold step. clear IH step.
      destruct (decide (i = j)) as [->|Hij].
      + rewrite (bool_decide_false (j ∈ js)) by done.
        rewrite (bool_decide_true (j ∈ j :: js)) by set_solver.
        case_bool_decide as Hbit.
        * rewrite list_lookup_alter_eq. apply land_bit_nonzero in Hbit; [|lia].
          rewrite Hbit. by destruct (cs !! j).
        * destruct (Z.testbit h _) eqn:Hb.
          { exfalso. revert Hbit. apply land_bit_nonzero; [lia|done]. }
          destruct (cs !! j); simpl; [|done]. f_equal. lia.
      + assert ((if bool_decide _ then alter (λ c, c + 1) j cs else cs) !! i = cs !! i) as ->.
        { case_bool_decide; [|done]. by rewrite list_lookup_alter_ne. }
        destruct (cs !! i); simpl; [|done]. f_equal.
        rewrite (bool_decide_ext (i ∈ j :: js) (i ∈ js)); [done|].
        rewrite elem_of_cons. split; [intros [?|?]; [congruence|done]|by right]. }
  rewrite Hgo.
  - rewrite bool_decide_true; [done|]. apply elem_of_seq. lia.
  - apply NoDup_seq.
  - apply Forall_forall. intros j Hj%elem_of_seq. lia.
Qed.

Lemma count_bits_length (hash_bits h : Z) (counts : list Z) :
  length (count_bits hash_bits h counts) = length counts.
Proof.
  unfold count_bits. generalize (seq 0 (Z.to_nat hash_bits)). intros js.
  revert counts. induction js as [|j js IH]; intros counts; simpl; [done|].
  rewrite IH. case_bool_decide; [apply length_alter|done].
Qed.

Lemma count_all_length (hash_bits : Z) (hashes : list Z) (counts : list Z) :
  length (fold_left (λ counts h, count_bits hash_bits h counts) hashes counts)
    = length counts.
Proof.
  revert counts. induction hashes as [|h hashes IH]; intros counts; simpl; [done|].
  by rewrite IH, count_bits_length.
Qed.

Lemma count_all_lookup (hash_bits : Z) (hashes : list Z) (counts : list Z) (i : nat) :
  (i < Z.to_nat hash_bits)%nat →
  fold_left (λ counts h, count_bits hash_bits h counts) hashes counts !! i =
    (λ c, c + votes hashes (hash_bits - 1 - Z.of_nat i)) <$> counts !! i.
Proof.
  intros Hi. revert counts. induction hashes as [|h hashes IH]; intros counts; simpl.
  - unfold votes. simpl. destruct (counts !! i); simpl; [|done]. f_equal. lia.
  - rewrite IH, count_bits_lookup by done.
    destruct (counts !! i); simpl; [|done]. f_equal.
    unfold votes. rewrite filter_cons. case_decide as Hb.
    + rewrite Hb. simpl length. simpl Z.b2z. lia.
    + apply not_true_is_false in Hb. rewrite Hb. simpl. lia.
Qed.

Lemma threshold_reached (len c : Z) :
  Qle_bool (inject_Z len / 2) (inject_Z c) = bool_decide (len ≤ 2 * c).
Proof.
  unfold Qle_bool, Qdiv, Qmult, Qinv, inject_Z. simpl.
  case_bool_decide as H.
  - apply Z.leb_le. lia.
  - apply Z.leb_gt. lia.
Qed.

(** The bit of weight [2 ^ j] of the combined hash, for any [j] below the
    width. *)
Lemma combine_testbit (hashes : list Z) (hash_bits j : Z) :
  hashes ≠ [] → 0 ≤ j < hash_bits →
  Z.testbit (combine_hashes_hash_majority hashes hash_bits) j =
    bool_decide (Z.of_nat (length hashes) ≤ 2 * votes hashes j).
Proof.
  intros Hne Hj. unfold combine_hashes_hash_majority.
  destruct hashes as [|h0 hashes']; [done|].
  set (hashes := h0 :: hashes') in *.
  set (counts := fold_left _ hashes _).
  set (i := Z.to_nat (hash_bits - 1 - j)).
  assert (Hi : (i < Z.to_nat hash_bits)%nat) by lia.
  assert (Hci : counts !! i = Some (votes hashes j)).
  { unfold counts. rewrite count_all_lookup by done.
    rewrite lookup_replicate_2 by done. simpl. f_equal.
    rewrite Z.add_0_l. f_equal. unfold i. lia. }
  assert (Hlen : length counts = Z.to_nat hash_bits).
  { unfold counts. by rewrite count_all_length, length_replicate. }
  change (fold_left _ counts 0) with
    (fold_left (pack_step (λ c, Qle_bool (inject_Z (Z.of_nat (length hashes)) / 2) (inject_Z c)))
       counts 0).
  replace j with (Z.of_nat (length counts - 1 - i)) at 1 by (unfold i; lia).
  erewrite pack_testbit_low by exact Hci.
  apply threshold_reached.
Qed.

(** C4. For a non-empty list of hashes and a bit below the width, the combined
    bit is set exactly when the number of hashes with that bit set is at
    least half the number of hashes. Hence two hashes that disagree on a bit
    give 1, and three hashes of which exactly one has the bit give 0. *)
Theorem combine_majority_ties_set (hashes : list Z) (hash_bits j : Z) :
  hashes ≠ [] → 0 ≤ j < hash_bits →
  (Z.testbit (combine_hashes_hash_majority hashes hash_bits) j = true
     ↔ (inject_Z (Z.of_nat (length hashes)) / 2 <= inject_Z (votes hashes j))%Q)
  ∧ (∀ h1 h2, hashes = [h1; h2] → Z.testbit h1 j ≠ Z.testbit h2 j →
       Z.testbit (combine_hashes_hash_majority hashes hash_bits) j = true)
  ∧ (∀ h1 h2 h3, hashes = [h1; h2; h3] → votes hashes j = 1 →
       Z.testbit (combine_hashes_hash_majority hashes hash_bits) j = false).
Proof.
  intros Hne Hj. rewrite combine_testbit by done. split; [|split].
  - rewrite <- Qle_bool_iff, threshold_reached. done.
  - intros h1 h2 -> Hdiff. apply bool_decide_eq_true.
    unfold votes. rewrite !filter_cons, filter_nil.
    destruct (Z.testbit h1 j), (Z.testbit h2 j); try done; repeat case_decide; simpl; lia.
  - intros h1 h2 h3 -> Hone. apply bool_decide_eq_false. rewrite Hone. simpl. lia.
Qed.

Lemma combine_majority_ties_set_witness :
  (Z.testbit (combine_hashes_hash_majority [5; 3] 64) 1 = true
     ↔ (inject_Z (Z.of_nat (length [5; 3]%Z)) / 2 <= inject_Z (votes [5; 3] 1)%Z)%Q)
  ∧ (∀ h1 h2, [5; 3] = [h1; h2] → Z.testbit h1 1 ≠ Z.testbit h2 1 →
       Z.testbit (combine_hashes_hash_majority [5; 3] 64) 1 = true)
  ∧ (∀ h1 h2 h3, [5; 3] = [h1; h2; h3] → votes [5; 3] 1 = 1 →
       Z.testbit (combine_hashes_hash_majority [5; 3] 64) 1 = false).
Proof. apply (combine_majority_ties_set [5; 3] 64 1); [discriminate|lia]. Defined.

Example combine_two_disagreeing : combine_hashes_hash_majority [5; 3] 4 = 7.
Proof. reflexivity. Qed.

Example combine_one_of_three : combine_hashes_hash_majority [4; 0; 0] 4 = 0.
Proof. reflexivity. Qed.

(** C7. Combining an empty sequence returns 0, whatever the width. *)
Theorem combine_empty (hash_bits : Z) : combine_hashes_hash_majority [] hash_bits = 0.
Proof. reflexivity. Qed.

(** ** Frame sampling *)

Lemma sample_indices_nonpositive (T S : Z) : T ≤ 0 → sample_indices T S = [].
Proof. intros HT. unfold sample_indices. by rewrite bool_decide_false by lia. Qed.



Example sample_indices_25_12 :
  sample_indices 25 12 = [0; 2; 4; 6; 8; 10; 12; 14; 16; 18; 20; 22].
Proof. reflexivity. Qed.

Example sample_indices_short_video : sample_indices 3 5 = [0; 1; 2; 3; 4].
Proof. reflexivity. Qed.

(** ** The dispatcher *)

Lemma audio_video_exts_disjoint (ext : string) :
  ext ∈ VIDEO_EXTS → ext ∉ AUDIO_EXTS.
Proof.
  intros Hv Ha.
  assert (Hempty : AUDIO_EXTS ∩ VIDEO_EXTS = ∅) by (vm_compute; reflexivity).
  apply (not_elem_of_empty (C:=gset string) ext). rewrite <- Hempty.
  by apply elem_of_intersection.
Qed.

(** C5. A file with an audio extension, the audio kind enabled and a non-empty
    fingerprint from fpcalc gets the kind [audio] and that fingerprint as
    key, whatever else [kinds] holds. *)
Theorem fingerprint_file_audio_first (w : World) (path : Path) (kinds : list string)
    (sample_frames : Z) (fp : string) :
  str_lower w (path_suffix w path) ∈ AUDIO_EXTS →
  "audio" ∈ kinds →
  run_fpcalc w path = Some fp → fp ≠ "" →
  fingerprint_file w path kinds sample_frames =
    Ok (mkFingerprintResult "audio" fp ("fpcalc:" +:+ str_nat (String.length fp) +:+ "chars")).
Proof.
  intros Hext Hkind Hfp Hne. unfold fingerprint_file.
  rewrite (bool_decide_true _ Hext), (bool_decide_true _ Hkind). simpl.
  rewrite Hfp. simpl. by rewrite bool_decide_false by done.
Qed.

Lemma fingerprint_file_audio_first_witness :
  fingerprint_file example_world "lib/b.MP3" ["video"; "audio"] 12 =
    Ok (mkFingerprintResult "audio" "AQADtEmS"
          ("fpcalc:" +:+ str_nat (String.length "AQADtEmS") +:+ "chars")).
Proof.
  apply (fingerprint_file_audio_first example_world "lib/b.MP3" ["video"; "audio"] 12
           "AQADtEmS").
  - refine (bool_decide_unpack _ _). vm_compute. exact I.
  - refine (bool_decide_unpack _ _). vm_compute. exact I.
  - reflexivity.
  - discriminate.
Defined.

Lemma sampled_hashes_none (w : World) (path : Path) (indices : list Z) :
  (∀ idx, idx ∈ indices → cap_read_at w path idx = None) →
  sampled_hashes w path indices = [].
Proof.
  intros Hnone. unfold sampled_hashes.
  induction indices as [|idx indices IH]; [done|]. simpl.
  rewrite (Hnone idx) by apply list_elem_of_here. simpl.
  apply IH. intros idx' Hin. apply Hnone. by apply list_elem_of_further.
Qed.

(** C9. A file with a video extension whose frame count is reported as zero,
    or of which no sampled frame decodes, gets no video hash; if its content
    can be read, the dispatcher returns the fallback result keyed by the
    digest of the content. *)
Theorem fingerprint_file_zero_frames (w : World) (path : Path) (kinds : list string)
    (sample_frames : Z) (data : list Byte.byte) :
  str_lower w (path_suffix w path) ∈ VIDEO_EXTS →
  (cap_frame_count w path = 0
   ∨ ∀ idx, idx ∈ sample_indices (cap_frame_count w path) sample_frames →
            cap_read_at w path idx = None) →
  read_bytes w path = Some data →
  video_perceptual_hash w path sample_frames = None
  ∧ fingerprint_file w path kinds sample_frames =
      Ok (mkFingerprintResult "fallback" (sha256_hexdigest w data)
            ("sha256:" +:+ String.substring 0 12 (sha256_hexdigest w data) +:+ "...")).
Proof.
  intros Hext Hframes Hread.
  assert (Hv : video_perceptual_hash w path sample_frames = None).
  { unfold video_perceptual_hash.
    destruct (cv2_imported w); [|done]. destruct (cap_isOpened w path); [|done]. simpl.
    rewrite sampled_hashes_none; [done|].
    destruct Hframes as [-> | Hnone]; [|done].
    intros idx. rewrite sample_indices_nonpositive by lia.
    by intros ?%elem_of_nil. }
  split; [done|]. unfold fingerprint_file.
  rewrite (bool_decide_false (_ ∈ AUDIO_EXTS)) by by apply audio_video_exts_disjoint.
  simpl. rewrite Hv. destruct (_ && _); unfold sha256_file; by rewrite Hread.
Qed.

Lemma fingerprint_file_zero_frames_witness :
  video_perceptual_hash example_world "lib/c.mp4" 12 = None
  ∧ fingerprint_file example_world "lib/c.mp4" ["audio"; "video"] 12 =
      Ok (mkFingerprintResult "fallback"
            (sha256_hexdigest example_world [Byte.x61; Byte.x62; Byte.x63])
            ("sha256:"
             +:+ String.substring 0 12
                   (sha256_hexdigest example_world [Byte.x61; Byte.x62; Byte.x63])
             +:+ "...")).
Proof.
  apply (fingerprint_file_zero_frames example_world "lib/c.mp4" ["audio"; "video"] 12
           [Byte.x61; Byte.x62; Byte.x63]).
  - refine (bool_decide_unpack _ _). vm_compute. exact I.
  - left. reflexivity.
  - reflexivity.
Defined.

Example fingerprint_file_decodable_video :
  fingerprint_file example_world "lib/d.mp4" ["audio"; "video"] 12 =
    Ok (mkFingerprintResult "video" "vhash:a9aded14a10489a9" "vhash:a9aded14a10489a9").
Proof. vm_compute. reflexivity. Qed.

(** ** The file finder *)

(** C10. With neither kind enabled and no custom extension the set of allowed
    extensions is empty, and [find_files] returns every regular file that
    [root.rglob("*")] (with recursion) or [root.iterdir()] (without) yields,
    in that order, whatever its extension. *)
Theorem find_files_no_filter (w : World) (root : Path) (recurse : bool)
    (kinds custom_exts : list string) :
  "audio" ∉ kinds → "video" ∉ kinds → custom_exts = [] →
  allowed_exts w kinds custom_exts = ∅
  ∧ find_files w root recurse kinds custom_exts =
      filter (λ p, is_file w p = true) (if recurse then rglob w root else iterdir w root)
  ∧ (∀ p, p ∈ (if recurse then rglob w root else iterdir w root) →
          is_file w p = true →
          p ∈ find_files w root recurse kinds custom_exts).
Proof.
  intros Ha Hv ->.
  assert (Hempty : allowed_exts w kinds [] = ∅).
  { unfold allowed_exts. rewrite !bool_decide_false by done. simpl.
    by rewrite union_empty_r_L. }
  assert (Hall : find_files w root recurse kinds [] =
                 filter (λ p, is_file w p = true)
                   (if recurse then rglob w root else iterdir w root)).
  { unfold find_files, _iter_files. rewrite Hempty.
    apply list_filter_iff. intros p. split; [by intros [? _]|].
    intros ?. split; [done|by left]. }
  split; [done|]. split; [done|].
  intros p Hp Hfile. rewrite Hall. by apply list_elem_of_filter.
Qed.

Lemma find_files_no_filter_witness :
  allowed_exts example_world [] [] = ∅
  ∧ find_files example_world "lib" true [] [] =
      filter (λ p, is_file example_world p = true)
        (if true then rglob example_world "lib" else iterdir example_world "lib")
  ∧ (∀ p, p ∈ (if true then rglob example_world "lib" else iterdir example_world "lib") →
          is_file example_world p = true →
          p ∈ find_files example_world "lib" true [] []).
Proof.
  apply (find_files_no_filter example_world "lib" true [] []).
  - apply not_elem_of_nil.
  - apply not_elem_of_nil.
  - reflexivity.
Defined.

Example find_files_everything :
  find_files example_world "lib" true [] [] =
    ["lib/a.mp3"; "lib/b.MP3"; "lib/c.mp4"; "lib/d.mp4"; "lib/e.bin"; "lib/sub/f.txt"].
Proof. vm_compute. reflexivity. Qed.

Example find_files_everything_flat :
  find_files example_world "lib" false [] [] =
    ["lib/a.mp3"; "lib/b.MP3"; "lib/c.mp4"; "lib/d.mp4"; "lib/e.bin"].
Proof. vm_compute. reflexivity. Qed.

Example find_files_video_only :
  find_files example_world "lib" true ["video"] [] = ["lib/c.mp4"; "lib/d.mp4"].
Proof. vm_compute. reflexivity. Qed.

(** ** The grouping engine *)

Lemma find_duplicates_loop_items (w : World) (files : list Path) (kinds : list string)
    (sample_frames : Z) (groups : Groups) :
  find_duplicates_loop w files kinds sample_frames groups =
    try! items ← fingerprint_all w files kinds sample_frames;
    Ok (group_items items groups).
Proof.
  revert groups. induction files as [|p files IH]; intros groups; simpl; [done|].
  destruct (fingerprint_file w p kinds sample_frames) as [fp|e]; simpl; [|done].
  rewrite IH. by destruct (fingerprint_all w files kinds sample_frames).
Qed.

Lemma fingerprint_all_paths (w : World) (files : list Path) (kinds : list string)
    (sample_frames : Z) (items : list Item) :
  fingerprint_all w files kinds sample_frames = Ok items →
  items.*1 = files
  ∧ Forall (λ it, fingerprint_file w it.1 kinds sample_frames = Ok it.2) items.
Proof.
  revert items. induction files as [|p files IH]; intros items; simpl.
  - intros [= <-]. by split.
  - destruct (fingerprint_file w p kinds sample_frames) as [fp|e] eqn:Hfp; simpl; [|done].
    destruct (fingerprint_all w files kinds sample_frames) as [rest|e]; simpl; [|done].
    intros [= <-]. destruct (IH rest eq_refl) as [Hp Hall]. split.
    + rewrite fmap_cons, Hp. done.
    + by constructor.
Qed.

Lemma keys_groups_append (groups : Groups) (k : string) (it : Item) :
  (groups_append groups k it).*1 =
    if bool_decide (k ∈ groups.*1) then groups.*1 else groups.*1 ++ [k].
Proof.
  induction groups as [|[k' v] groups IH].
  - by rewrite bool_decide_false by apply not_elem_of_nil.
  - cbn [groups_append]. rewrite !fmap_cons. cbn [fst].
    destruct (decide (k' = k)) as [->|Hk].
    + rewrite (bool_decide_true (k = k)) by done.
      by rewrite bool_decide_true by apply list_elem_of_here.
    + rewrite (bool_decide_false (k' = k)) by done.
      rewrite fmap_cons, IH. cbn [fst].
      destruct (decide (k ∈ groups.*1)) as [Hin|Hin].
      * rewrite (bool_decide_true _ Hin).
        by rewrite bool_decide_true by by apply list_elem_of_further.
      * rewrite (bool_decide_false _ Hin).
        rewrite bool_decide_false; [done|].
        rewrite elem_of_cons. intros [?|?]; congruence.
Qed.

Lemma lookup_groups_append (groups : Groups) (k k' : string) (it : Item) :
  lookup_group k (groups_append groups k' it) =
    lookup_group k groups ++ (if bool_decide (k' = k) then [it] else []).
Proof.
  induction groups as [|[k0 v] groups IH]; cbn [groups_append lookup_group].
  - by destruct (bool_decide (k' = k)).
  - destruct (decide (k0 = k')) as [->|Hne].
    + rewrite (bool_decide_true (k' = k')) by done. cbn [lookup_group].
      destruct (bool_decide (k' = k)); [done|]. by rewrite app_nil_r.
    + rewrite (bool_decide_false (k0 = k')) by done. cbn [lookup_group].
      destruct (decide (k0 = k)) as [->|Hk].
      * rewrite (bool_decide_true (k = k)) by done.
        rewrite bool_decide_false by congruence. by rewrite app_nil_r.
      * by rewrite (bool_decide_false (k0 = k)) by done.
Qed.

Lemma NoDup_keys_groups_append (groups : Groups) (k : string) (it : Item) :
  NoDup groups.*1 → NoDup (groups_append groups k it).*1.
Proof.
  intros Hnd. rewrite keys_groups_append. case_bool_decide as Hin; [done|].
  apply NoDup_app. split; [done|]. split.
  - intros x Hx ->%list_elem_of_singleton. done.
  - apply NoDup_singleton.
Qed.

Lemma group_items_keys (items : list Item) (groups : Groups) (k : string) :
  k ∈ (group_items items groups).*1 ↔ k ∈ groups.*1 ∨ k ∈ (key ∘ snd) <$> items.
Proof.
  revert groups. induction items as [|it items IH]; intros groups; simpl.
  - rewrite elem_of_nil. tauto.
  - unfold group_items in *. simpl. rewrite IH, keys_groups_append, elem_of_cons.
    case_bool_decide as Hin.
    + split; [tauto|]. intros [?|[->|?]]; tauto.
    + rewrite elem_of_app, list_elem_of_singleton. split; [|tauto].
      intros [[?|?]|?]; auto.
Qed.

Lemma group_items_NoDup (items : list Item) (groups : Groups) :
  NoDup groups.*1 → NoDup (group_items items groups).*1.
Proof.
  revert groups. induction items as [|it items IH]; intros groups Hnd; simpl; [done|].
  apply IH. by apply NoDup_keys_groups_append.
Qed.

Lemma group_items_lookup (items : list Item) (groups : Groups) (k : string) :
  lookup_group k (group_items items groups) = lookup_group k groups ++ items_with_key k items.
Proof.
  revert groups. induction items as [|it items IH]; intros groups; simpl.
  - by rewrite app_nil_r.
  - unfold group_items in *. simpl. rewrite IH, lookup_groups_append, <- app_assoc.
    f_equal. unfold items_with_key. rewrite filter_cons.
    case_bool_decide; case_decide; done.
Qed.

Lemma lookup_group_elem (groups : Groups) (k : string) (v : list Item) :
  NoDup groups.*1 → (k, v) ∈ groups → lookup_group k groups = v.
Proof.
  induction groups as [|[k' v'] groups IH]; simpl; intros Hnd Hin.
  - by apply elem_of_nil in Hin.
  - apply NoDup_cons in Hnd as [Hk' Hnd]. apply elem_of_cons in Hin as [Heq|Hin].
    + simplify_eq. by rewrite bool_decide_true.
    + rewrite bool_decide_false; [by apply IH|].
      intros ->. apply Hk'. apply list_elem_of_fmap. by exists (k, v).
Qed.

Lemma lookup_group_key (groups : Groups) (k : string) :
  k ∈ groups.*1 → (k, lookup_group k groups) ∈ groups.
Proof.
  induction groups as [|[k' v'] groups IH]; simpl; intros Hin.
  - by apply elem_of_nil in Hin.
  - case_bool_decide as Hk.
    + subst. apply list_elem_of_here.
    + apply list_elem_of_further, IH. apply elem_of_cons in Hin as [?|?]; [congruence|done].
Qed.

Lemma find_duplicates_items (w : World) (files : list Path) (kinds : list string)
    (sample_frames : Z) :
  find_duplicates w files kinds sample_frames =
    try! items ← fingerprint_all w files kinds sample_frames;
    Ok (filter (λ kv, (1 < length kv.2)%nat) (group_items items [])).
Proof.
  unfold find_duplicates. rewrite find_duplicates_loop_items.
  by destruct (fingerprint_all w files kinds sample_frames).
Qed.

(** Every entry of the accumulated dictionary holds exactly the items that
    carry its key, in input order. *)
Lemma group_items_elem (items : list Item) (k : string) (v : list Item) :
  (k, v) ∈ group_items items [] ↔ v = items_with_key k items ∧ v ≠ [].
Proof.
  assert (Hnd : NoDup (group_items items []).*1) by apply group_items_NoDup, NoDup_nil_2.
  pose proof (group_items_lookup items [] k) as Hlk. simpl in Hlk.
  split.
  - intros Hin. apply lookup_group_elem in Hin as Hv; [|done].
    rewrite Hlk in Hv. subst v. split; [done|].
    intros Hnil. apply (list_elem_of_fmap_2 fst) in Hin. simpl in Hin.
    apply group_items_keys in Hin as [Hin|Hin]; [by apply elem_of_nil in Hin|].
    apply list_elem_of_fmap in Hin as (it & Hk & Hit).
    assert (it ∈ items_with_key k items) as Hit'.
    { apply list_elem_of_filter. by split. }
    rewrite Hnil in Hit'. by apply elem_of_nil in Hit'.
  - intros [-> Hne]. rewrite <- Hlk. apply lookup_group_key.
    apply group_items_keys. right.
    destruct (items_with_key k items) as [|it r] eqn:Hf; [done|].
    assert (it ∈ items_with_key k items) as Hit by (rewrite Hf; apply list_elem_of_here).
    apply list_elem_of_filter in Hit as [Hk Hit].
    apply list_elem_of_fmap. by exists it.
Qed.

(** C8. When every file gets a fingerprint, [find_duplicates] returns a
    dictionary that holds, for a key, exactly the items carrying it, and
    only for the keys carried by at least two items; a key carried by exactly
    one file is not in it. *)
Theorem find_duplicates_minimal (w : World) (files : list Path) (kinds : list string)
    (sample_frames : Z) (items : list Item) :
  fingerprint_all w files kinds sample_frames = Ok items →
  ∃ dupes, find_duplicates w files kinds sample_frames = Ok dupes
    ∧ NoDup dupes.*1
    ∧ (∀ k v, (k, v) ∈ dupes ↔ v = items_with_key k items ∧ (2 ≤ length v)%nat)
    ∧ (∀ k, length (items_with_key k items) = 1%nat → k ∉ dupes.*1).
Proof.
  intros Hitems. rewrite find_duplicates_items, Hitems. simpl.
  eexists. split; [done|].
  assert (Hiff : ∀ k v,
    (k, v) ∈ filter (λ kv : string * list Item, (1 < length kv.2)%nat) (group_items items [])
    ↔ v = items_with_key k items ∧ (2 ≤ length v)%nat).
  { intros k v. rewrite list_elem_of_filter, group_items_elem. simpl. split.
    - intros (Hlen & -> & _). split; [done|lia].
    - intros [-> Hlen]. split; [lia|]. split; [done|].
      intros Hnil. rewrite Hnil in Hlen. simpl in Hlen. lia. }
  split; [|split; [done|]].
  - apply (NoDup_fmap_2_strong fst).
    + intros [k1 v1] [k2 v2] H1%Hiff H2%Hiff Hk. simpl in Hk. subst k2.
      destruct H1 as [-> _], H2 as [-> _]. done.
    + apply NoDup_filter. apply (NoDup_fmap_1 fst).
      apply group_items_NoDup, NoDup_nil_2.
  - intros k Hone Hin. apply list_elem_of_fmap in Hin as ([k' v] & -> & Hin).
    apply Hiff in Hin as [-> Hlen]. simpl in *. lia.
Qed.

Lemma find_duplicates_minimal_witness :
  ∃ dupes,
    find_duplicates example_world ["lib/a.mp3"; "lib/d.mp4"; "lib/b.MP3"] ["audio"; "video"] 12
      = Ok dupes
    ∧ NoDup dupes.*1
    ∧ (∀ k v, (k, v) ∈ dupes ↔
         v = items_with_key k
               [("lib/a.mp3", mkFingerprintResult "audio" "AQADtEmS" "fpcalc:8chars");
                ("lib/d.mp4", mkFingerprintResult "video" "vhash:a9aded14a10489a9"
                                "vhash:a9aded14a10489a9");
                ("lib/b.MP3", mkFingerprintResult "audio" "AQADtEmS" "fpcalc:8chars")]
         ∧ (2 ≤ length v)%nat)
    ∧ (∀ k, length (items_with_key k
               [("lib/a.mp3", mkFingerprintResult "audio" "AQADtEmS" "fpcalc:8chars");
                ("lib/d.mp4", mkFingerprintResult "video" "vhash:a9aded14a10489a9"
                                "vhash:a9aded14a10489a9");
                ("lib/b.MP3", mkFingerprintResult "audio" "AQADtEmS" "fpcalc:8chars")])
            = 1%nat → k ∉ dupes.*1).
Proof.
  apply (find_duplicates_minimal example_world
           ["lib/a.mp3"; "lib/d.mp4"; "lib/b.MP3"] ["audio"; "video"] 12).
  vm_compute. reflexivity.
Defined.

Example find_duplicates_drops_singleton :
  find_duplicates example_world ["lib/a.mp3"; "lib/d.mp4"; "lib/b.MP3"] ["audio"; "video"] 12
  = Ok [("AQADtEmS",
         [("lib/a.mp3", mkFingerprintResult "audio" "AQADtEmS" "fpcalc:8chars");
          ("lib/b.MP3", mkFingerprintResult "audio" "AQADtEmS" "fpcalc:8chars")])].
Proof. vm_compute. reflexivity. Qed.

(** ** Failures of the fallback read *)

(** The only exception of [fingerprint_file] is the failure to read the file
    for the fallback hash. *)
Lemma fingerprint_file_raise (w : World) (p : Path) (kinds : list string)
    (sample_frames : Z) (e : exn) :
  fingerprint_file w p kinds sample_frames = Raise e →
  e = OSError p ∧ read_bytes w p = None ∧ sha256_file w p = Raise e.
Proof.
  unfold fingerprint_file, sha256_file.
  destruct (if _ && _ then truthy _ else None); [done|].
  destruct (if _ && _ then video_perceptual_hash _ _ _ else None); [done|].
  destruct (read_bytes w p); simpl; [done|]. by intros [= <-].
Qed.

Lemma fingerprint_all_app_raise (w : World) (pre post : list Path) (p : Path)
    (kinds : list string) (sample_frames : Z) (items : list Item) (e : exn) :
  fingerprint_all w pre kinds sample_frames = Ok items →
  fingerprint_file w p kinds sample_frames = Raise e →
  fingerprint_all w (pre ++ p :: post) kinds sample_frames = Raise e.
Proof.
  revert items. induction pre as [|q pre IH]; intros items; simpl.
  - intros _ ->. done.
  - destruct (fingerprint_file w q kinds sample_frames); simpl; [|done].
    destruct (fingerprint_all w pre kinds sample_frames) as [rest|] eqn:Hrest; simpl; [|done].
    intros _ Hp. by rewrite (IH rest eq_refl Hp).
Qed.

(** If some file of the list fails, there is a first file that fails. *)
Lemma fingerprint_all_raise (w : World) (files : list Path) (kinds : list string)
    (sample_frames : Z) (p : Path) (e : exn) :
  p ∈ files → fingerprint_file w p kinds sample_frames = Raise e →
  ∃ pre q post items,
    files = pre ++ q :: post
    ∧ fingerprint_all w pre kinds sample_frames = Ok items
    ∧ fingerprint_file w q kinds sample_frames = Raise (OSError q).
Proof.
  induction files as [|f files IH]; intros Hin Hp; [by apply elem_of_nil in Hin|].
  destruct (fingerprint_file w f kinds sample_frames) as [fp|e'] eqn:Hf.
  - apply elem_of_cons in Hin as [->|Hin]; [congruence|].
    destruct (IH Hin Hp) as (pre & q & post & items & -> & Hpre & Hq).
    exists (f :: pre), q, post, ((f, fp) :: items). split; [done|]. split; [|done].
    simpl. by rewrite Hf, Hpre.
  - exists [], f, files, []. split; [done|]. split; [done|].
    by destruct (fingerprint_file_raise _ _ _ _ _ Hf) as [-> _].
Qed.

(** C2, as amended. When the fallback read of a file of the list fails, the
    exception leaves [find_duplicates]: the result is the [OSError] of the
    first file of the list whose read fails, and no group is returned for any
    file, before or after it. *)
Theorem find_duplicates_read_failure_propagates (w : World) (files : list Path)
    (kinds : list string) (sample_frames : Z) (p : Path) (e : exn) :
  p ∈ files →
  fingerprint_file w p kinds sample_frames = Raise e →
  read_bytes w p = None
  ∧ ∃ pre q post items,
      files = pre ++ q :: post
      ∧ fingerprint_all w pre kinds sample_frames = Ok items
      ∧ read_bytes w q = None
      ∧ find_duplicates w files kinds sample_frames = Raise (OSError q).
Proof.
  intros Hin Hp. split; [by apply fingerprint_file_raise in Hp as (_ & ? & _)|].
  destruct (fingerprint_all_raise w files kinds sample_frames p e Hin Hp)
    as (pre & q & post & items & -> & Hpre & Hq).
  exists pre, q, post, items. split; [done|]. split; [done|].
  split; [by apply fingerprint_file_raise in Hq as (_ & ? & _)|].
  rewrite find_duplicates_items.
  by rewrite (fingerprint_all_app_raise w pre post q kinds sample_frames items _ Hpre Hq).
Qed.

Lemma find_duplicates_read_failure_propagates_witness :
  read_bytes example_world "vault/locked.bin" = None
  ∧ ∃ pre q post items,
      ["lib/c.mp4"; "vault/locked.bin"; "lib/e.bin"] = pre ++ q :: post
      ∧ fingerprint_all example_world pre [] 12 = Ok items
      ∧ read_bytes example_world q = None
      ∧ find_duplicates example_world ["lib/c.mp4"; "vault/locked.bin"; "lib/e.bin"] [] 12
          = Raise (OSError q).
Proof.
  apply (find_duplicates_read_failure_propagates example_world
           ["lib/c.mp4"; "vault/locked.bin"; "lib/e.bin"] [] 12
           "vault/locked.bin" (OSError "vault/locked.bin")).
  - apply list_elem_of_further, list_elem_of_here.
  - vm_compute. reflexivity.
Defined.

(** C2, as stated, fails: two files with the same content form a group, but
    with an unreadable file between them [find_duplicates] returns no group
    at all, and [main] ends with the exception. *)
Lemma find_duplicates_isolation_counterexample :
  find_duplicates example_world ["lib/c.mp4"; "lib/e.bin"] [] 12
    = Ok [("digest:abc",
           [("lib/c.mp4", mkFingerprintResult "fallback" "digest:abc" "sha256:digest:abc...");
            ("lib/e.bin", mkFingerprintResult "fallback" "digest:abc" "sha256:digest:abc...")])]
  ∧ find_duplicates example_world ["lib/c.mp4"; "vault/locked.bin"; "lib/e.bin"] [] 12
    = Raise (OSError "vault/locked.bin")
  ∧ ¬ (∃ dupes,
         find_duplicates example_world ["lib/c.mp4"; "vault/locked.bin"; "lib/e.bin"] [] 12
           = Ok dupes)
  ∧ main example_world (mkArgs "vault" false ["audio"; "video"] ["bin"] 12 false)
    = Uncaught (OSError "vault/locked.bin").
Proof.
  split; [vm_compute; reflexivity|]. split; [vm_compute; reflexivity|].
  split; [|vm_compute; reflexivity].
  intros [dupes Hd]. vm_compute in Hd. discriminate.
Qed.

(** The exception is not caught by [main] either. *)
Lemma main_read_failure_uncaught (w : World) (args : Args) (p : Path) (e : exn) :
  cv2_imported w = true →
  p ∈ find_files w (arg_root args) (negb (arg_no_recurse args)) (arg_kinds args)
        (arg_custom_exts args) →
  fingerprint_file w p (arg_kinds args) (arg_sample_frames args) = Raise e →
  ∃ q, read_bytes w q = None ∧ main w args = Uncaught (OSError q).
Proof.
  intros Hcv Hin Hp. unfold main. rewrite Hcv. simpl.
  destruct (fingerprint_all_raise w _ _ _ p e Hin Hp)
    as (pre & q & post & items & Hfiles & Hpre & Hq).
  exists q. split; [by apply fingerprint_file_raise in Hq as (_ & ? & _)|].
  rewrite find_duplicates_items, Hfiles.
  rewrite (fingerprint_all_app_raise w pre post q _ _ items _ Hpre Hq). simpl.
  rewrite <- Hfiles.
  destruct (find_files _ _ _ _ _); [by apply elem_of_nil in Hin|done].
Qed.

(** ** Sorting and the reports *)

Lemma leb_flip (a b : string) : String.leb a b = false → String.leb b a = true.
Proof. intros H. destruct (String.leb_total a b) as [?|?]; congruence. Qed.

Lemma leb_trans (a b c : string) :
  String.leb a b = true → String.leb b c = true → String.leb a c = true.
Proof.
  intros Hab Hbc. apply Is_true_true.
  apply (transitivity (R:=String.le) (y:=b)); by apply Is_true_true.
Qed.

Lemma leb_refl (a : string) : String.leb a a = true.
Proof. apply Is_true_true. apply (reflexivity (R:=String.le)). Qed.

Section sorted_facts.
Context {A : Type} (sort_key : A → string).

Local Abbreviation ins := (sorted_insert sort_key).

Lemma sorted_insert_Permutation (x : A) (l : list A) : ins x l ≡ₚ x :: l.
Proof.
  induction l as [|y l IH]; simpl; [done|].
  destruct (String.leb _ _); [done|]. rewrite IH. apply Permutation_swap.
Qed.

Lemma sorted_Permutation (l : list A) : sorted sort_key l ≡ₚ l.
Proof.
  induction l as [|x l IH]; simpl; [done|].
  by rewrite sorted_insert_Permutation, IH.
Qed.

(** Two insertions commute, unless they insert different elements with the
    same key. *)
Lemma sorted_insert_comm (x y : A) (l : list A) :
  (sort_key x = sort_key y → x = y) →
  ins x (ins y l) = ins y (ins x l).
Proof.
  intros Hxy. induction l as [|z l IH]; simpl.
  - destruct (String.leb (sort_key x) (sort_key y)) eqn:Hxy1,
             (String.leb (sort_key y) (sort_key x)) eqn:Hyx1; simpl; try done.
    + by rewrite (Hxy (String.leb_antisym _ _ Hxy1 Hyx1)).
    + apply leb_flip in Hxy1. congruence.
  - destruct (String.leb (sort_key y) (sort_key z)) eqn:Hyz,
             (String.leb (sort_key x) (sort_key z)) eqn:Hxz; simpl;
      rewrite ?Hyz, ?Hxz;
      destruct (String.leb (sort_key x) (sort_key y)) eqn:Hxy1,
               (String.leb (sort_key y) (sort_key x)) eqn:Hyx1; simpl;
      rewrite ?Hyz, ?Hxz; try done;
      try (by rewrite (Hxy (String.leb_antisym _ _ Hxy1 Hyx1)));
      try (by rewrite IH);
      try (apply leb_flip in Hxy1; congruence);
      try (pose proof (leb_trans _ _ _ Hxy1 Hyz); congruence);
      try (pose proof (leb_trans _ _ _ Hyx1 Hxz); congruence).
Qed.

(** [sorted] does not depend on the order of its input when elements with
    the same key are equal. *)
Lemma sorted_Permutation_eq (l l' : list A) :
  l ≡ₚ l' →
  (∀ x y, x ∈ l → y ∈ l → sort_key x = sort_key y → x = y) →
  sorted sort_key l = sorted sort_key l'.
Proof.
  induction 1 as [|x l l' Hperm IH|x y l|l l' l'' Hp1 IH1 Hp2 IH2]; intros Hinj; simpl.
  - done.
  - rewrite IH; [done|]. intros a b Ha Hb. apply Hinj; by apply list_elem_of_further.
  - apply sorted_insert_comm. apply Hinj.
    + apply list_elem_of_here.
    + apply list_elem_of_further, list_elem_of_here.
  - rewrite IH1 by done. apply IH2.
    intros a b Ha Hb. apply Hinj; by rewrite Hp1.
Qed.
End sorted_facts.

Lemma sorted_insert_fmap {A B : Type} (f : A → B) (sort_key : B → string) (x : A)
    (l : list A) :
  sorted_insert sort_key (f x) (f <$> l) = f <$> sorted_insert (sort_key ∘ f) x l.
Proof.
  induction l as [|y l IH]; [done|]. rewrite fmap_cons. simpl.
  destruct (String.leb _ _); [done|]. by rewrite fmap_cons, IH.
Qed.

Lemma sorted_fmap {A B : Type} (f : A → B) (sort_key : B → string) (l : list A) :
  sorted sort_key (f <$> l) = f <$> sorted (sort_key ∘ f) l.
Proof.
  induction l as [|x l IH]; [done|]. rewrite fmap_cons. simpl.
  by rewrite IH, sorted_insert_fmap.
Qed.

Lemma filter_groups_shape (g : string → list Item) (groups : Groups) :
  Forall (λ kv, kv.2 = g kv.1) groups →
  filter (λ kv, (1 < length kv.2)%nat) groups =
    (λ k, (k, g k)) <$> filter (λ k, (1 < length (g k))%nat) groups.*1.
Proof.
  induction 1 as [|[k v] groups Hkv Hall IH]; [done|]. simpl in Hkv. subst v.
  rewrite fmap_cons, !filter_cons. simpl. rewrite IH.
  destruct (decide (1 < length (g k))%nat); [|done]. by rewrite fmap_cons.
Qed.

Lemma dupes_shape (items : list Item) :
  filter (λ kv, (1 < length kv.2)%nat) (group_items items []) =
    (λ k, (k, items_with_key k items)) <$> dupe_keys items.
Proof.
  apply filter_groups_shape. apply Forall_forall. intros [k v] Hin.
  by apply group_items_elem in Hin as [-> _].
Qed.

Lemma elem_of_dupe_keys (items : list Item) (k : string) :
  k ∈ dupe_keys items ↔ (1 < length (items_with_key k items))%nat.
Proof.
  unfold dupe_keys. rewrite list_elem_of_filter. split; [by intros [? _]|].
  intros Hlen. split; [done|].
  apply (list_elem_of_fmap_2 fst (group_items items []) (k, items_with_key k items)).
  apply group_items_elem. split; [done|]. intros Hnil. rewrite Hnil in Hlen. simpl in Hlen. lia.
Qed.

Lemma dupe_keys_NoDup (items : list Item) : NoDup (dupe_keys items).
Proof. apply NoDup_filter, group_items_NoDup, NoDup_nil_2. Qed.

Lemma items_with_key_Permutation (k : string) (items items' : list Item) :
  items ≡ₚ items' → items_with_key k items ≡ₚ items_with_key k items'.
Proof. intros Hp. unfold items_with_key. by rewrite Hp. Qed.

Lemma dupe_keys_Permutation (items items' : list Item) :
  items ≡ₚ items' → dupe_keys items ≡ₚ dupe_keys items'.
Proof.
  intros Hp. apply NoDup_Permutation; [apply dupe_keys_NoDup..|].
  intros k. rewrite !elem_of_dupe_keys.
  by rewrite (Permutation_length (items_with_key_Permutation k _ _ Hp)).
Qed.

Lemma sorted_ext {A : Type} (k1 k2 : A → string) (l : list A) :
  (∀ x, k1 x = k2 x) → sorted k1 l = sorted k2 l.
Proof.
  intros Hk. induction l as [|x l IH]; [done|]. simpl. rewrite IH.
  generalize (sorted k2 l). intros s. induction s as [|y s IHs]; [done|].
  simpl. by rewrite !Hk, IHs.
Qed.

(** The text report of the groups of a list of items does not depend on the
    order of the items, when items with the same path are equal. *)
Lemma format_report_items_Permutation (items items' : list Item) :
  items ≡ₚ items' →
  (∀ a b, a ∈ items → b ∈ items → a.1 = b.1 → a = b) →
  format_report (filter (λ kv, (1 < length kv.2)%nat) (group_items items []))
  = format_report (filter (λ kv, (1 < length kv.2)%nat) (group_items items' [])).
Proof.
  intros Hp Hinj. unfold format_report.
  apply (f_equal (String.concat newline)), (f_equal mjoin).
  rewrite !dupes_shape, !sorted_fmap.
  rewrite (sorted_ext (fst ∘ _) id (dupe_keys items)) by done.
  rewrite (sorted_ext (fst ∘ _) id (dupe_keys items')) by done.
  rewrite <- (sorted_Permutation_eq id (dupe_keys items) (dupe_keys items'));
    [|by apply dupe_keys_Permutation|by intros].
  rewrite <- !list_fmap_compose.
  apply list_fmap_ext. intros _ k _.
  pose proof (items_with_key_Permutation k _ _ Hp) as Hk.
  unfold group_lines. simpl. rewrite (Permutation_length Hk). do 2 f_equal.
  apply sorted_Permutation_eq; [done|].
  intros a b [_ Ha]%list_elem_of_filter [_ Hb]%list_elem_of_filter. by apply Hinj.
Qed.

Lemma fingerprint_all_Permutation (w : World) (files files' : list Path)
    (kinds : list string) (sample_frames : Z) (items : list Item) :
  files ≡ₚ files' →
  fingerprint_all w files kinds sample_frames = Ok items →
  ∃ items', fingerprint_all w files' kinds sample_frames = Ok items' ∧ items ≡ₚ items'.
Proof.
  intros Hp. revert items.
  induction Hp as [|p l l' Hp IH|p q l|l l' l'' Hp1 IH1 Hp2 IH2]; intros items; simpl.
  - intros [= <-]. by exists [].
  - destruct (fingerprint_file w p kinds sample_frames) as [fp|]; simpl; [|done].
    destruct (fingerprint_all w l kinds sample_frames) as [rest|]; simpl; [|done].
    intros [= <-]. destruct (IH rest eq_refl) as (rest' & -> & Hrest). simpl.
    eexists. split; [done|]. by constructor.
  - destruct (fingerprint_file w q kinds sample_frames) as [fq|]; simpl; [|done].
    destruct (fingerprint_file w p kinds sample_frames) as [fp|]; simpl; [|done].
    destruct (fingerprint_all w l kinds sample_frames) as [rest|]; simpl; [|done].
    intros [= <-]. eexists. split; [done|]. apply Permutation_swap.
  - intros Hitems. destruct (IH1 items Hitems) as (items1 & H1 & Hp1').
    destruct (IH2 items1 H1) as (items2 & H2 & Hp2').
    exists items2. split; [done|]. by etrans.
Qed.

(** X15. The plain-text report is the same for every order of the files: the
    groups and their entries are sorted when they are printed. *)
Lemma format_report_Permutation (w : World) (files files' : list Path)
    (kinds : list string) (sample_frames : Z) (dupes : Groups) :
  files ≡ₚ files' →
  find_duplicates w files kinds sample_frames = Ok dupes →
  ∃ dupes', find_duplicates w files' kinds sample_frames = Ok dupes'
    ∧ format_report dupes = format_report dupes'.
Proof.
  intros Hp. rewrite !find_duplicates_items.
  destruct (fingerprint_all w files kinds sample_frames) as [items|] eqn:Hitems;
    simpl; [|done].
  intros [= <-].
  destruct (fingerprint_all_Permutation w files files' kinds sample_frames items Hp Hitems)
    as (items' & -> & Hperm). simpl.
  eexists. split; [done|].
  apply format_report_items_Permutation; [done|].
  apply fingerprint_all_paths in Hitems as [_ Hall]. rewrite Forall_forall in Hall.
  intros [p1 f1] [p2 f2] H1%Hall H2%Hall Heq. simpl in *. subst p2. congruence.
Qed.

(** C3. The order of the JSON report follows the order in which the files
    were found. The same five files, enumerated in two orders, give the same
    text report, sorted by key and by path, but two different JSON reports:
    in the second run the group [digest:abc] comes before [AQADtEmS] and
    [lib/e.bin] before [lib/c.mp4]. *)
Theorem json_report_follows_input_order :
  let files := ["lib/a.mp3"; "lib/b.MP3"; "lib/c.mp4"; "lib/d.mp4"; "lib/e.bin"] in
  let kinds := ["audio"; "video"] in
  let audio := mkFingerprintResult "audio" "AQADtEmS" "fpcalc:8chars" in
  let fallback := mkFingerprintResult "fallback" "digest:abc" "sha256:digest:abc..." in
  let dupes1 := [("AQADtEmS", [("lib/a.mp3", audio); ("lib/b.MP3", audio)]);
                 ("digest:abc", [("lib/c.mp4", fallback); ("lib/e.bin", fallback)])] in
  let dupes2 := [("digest:abc", [("lib/e.bin", fallback); ("lib/c.mp4", fallback)]);
                 ("AQADtEmS", [("lib/b.MP3", audio); ("lib/a.mp3", audio)])] in
  files ≡ₚ reverse files
  ∧ find_duplicates example_world files kinds 12 = Ok dupes1
  ∧ find_duplicates example_world (reverse files) kinds 12 = Ok dupes2
  ∧ format_report dupes1 = format_report dupes2
  ∧ json_payload "lib" false dupes1 ≠ json_payload "lib" false dupes2
  ∧ main example_world (mkArgs "lib" false kinds ["bin"] 12 false)
    = main example_world_reversed (mkArgs "lib" false kinds ["bin"] 12 false)
  ∧ main example_world (mkArgs "lib" false kinds ["bin"] 12 true)
    = Returned (Json (json_payload "lib" false dupes1)) 0
  ∧ main example_world_reversed (mkArgs "lib" false kinds ["bin"] 12 true)
    = Returned (Json (json_payload "lib" false dupes2)) 0.
Proof.
  intros files kinds audio fallback dupes1 dupes2.
  split; [symmetry; apply reverse_Permutation|].
  repeat split; try (vm_compute; reflexivity).
  vm_compute. discriminate.
Qed.


(** * Further properties *)

(** ** More on the hash combiner *)

Lemma pack_bound {A : Type} (f : A → bool) (l : list A) :
  0 ≤ fold_left (pack_step f) l 0 < 2 ^ Z.of_nat (length l).
Proof.
  assert (0 ≤ fold_left (pack_step f) l 0) as Hv by (by apply pack_nonneg).
  split; [done|]. set (v := fold_left _ _ _) in *.
  destruct (decide (v = 0)) as [->|Hne]; [apply Z.pow_pos_nonneg; lia|].
  apply Z.log2_lt_pow2; [lia|].
  destruct (decide (Z.log2 v < Z.of_nat (length l))) as [|Hge]; [done|exfalso].
  assert (Z.testbit v (Z.log2 v) = true) as Hbit by (apply Z.bit_log2; lia).
  unfold v in Hbit at 1. rewrite pack_testbit_high in Hbit by lia.
  by rewrite Z.bits_0 in Hbit.
Qed.

(** The combined hash as a packing of the per-bit counts. *)
Lemma combine_unfold (hashes : list Z) (hash_bits : Z) :
  hashes ≠ [] →
  ∃ counts,
    length counts = Z.to_nat hash_bits
    ∧ combine_hashes_hash_majority hashes hash_bits =
        fold_left
          (pack_step (λ c, Qle_bool (inject_Z (Z.of_nat (length hashes)) / 2) (inject_Z c)))
          counts 0.
Proof.
  intros Hne. destruct hashes as [|h0 hashes']; [done|].
  eexists. split; [|reflexivity].
  by rewrite count_all_length, length_replicate.
Qed.

(** Every bit of the combined hash, inside and outside the width. *)
Lemma combine_bits (hashes : list Z) (hash_bits j : Z) :
  hashes ≠ [] → 0 ≤ j →
  Z.testbit (combine_hashes_hash_majority hashes hash_bits) j =
    bool_decide (j < hash_bits)
    && bool_decide (Z.of_nat (length hashes) ≤ 2 * votes hashes j).
Proof.
  intros Hne Hj. destruct (decide (j < hash_bits)) as [Hlt|Hge].
  - rewrite (bool_decide_true _ Hlt). simpl. by apply combine_testbit.
  - rewrite (bool_decide_false _ Hge). simpl.
    destruct (combine_unfold hashes hash_bits Hne) as (counts & Hlen & ->).
    rewrite pack_testbit_high by lia. apply Z.bits_0.
Qed.

Lemma combine_bound (hashes : list Z) (hash_bits : Z) :
  0 ≤ hash_bits →
  0 ≤ combine_hashes_hash_majority hashes hash_bits < 2 ^ hash_bits.
Proof.
  intros Hb. destruct (decide (hashes = [])) as [->|Hne].
  - simpl. split; [done|]. by apply Z.pow_pos_nonneg.
  - destruct (combine_unfold hashes hash_bits Hne) as (counts & Hlen & ->).
    replace hash_bits with (Z.of_nat (length counts)) by lia. apply pack_bound.
Qed.

Lemma votes_mod (hashes : list Z) (hash_bits j : Z) :
  0 ≤ j < hash_bits →
  votes ((λ h, h `mod` 2 ^ hash_bits) <$> hashes) j = votes hashes j.
Proof.
  intros Hj. unfold votes. f_equal.
  induction hashes as [|h hashes IH]; [done|].
  rewrite fmap_cons, !filter_cons, Z.mod_pow2_bits_low by lia.
  destruct (decide (Z.testbit h j = true)); simpl; by rewrite IH.
Qed.

(** X1. The combined hash always fits the width: it is non-negative and below
    [2 ^ hash_bits]. It depends only on the [hash_bits] low bits of the input
    hashes: a negative or wider input counts as its value modulo
    [2 ^ hash_bits]. *)
Theorem combine_range (hashes : list Z) (hash_bits : Z) :
  0 ≤ hash_bits →
  0 ≤ combine_hashes_hash_majority hashes hash_bits < 2 ^ hash_bits
  ∧ combine_hashes_hash_majority ((λ h, h `mod` 2 ^ hash_bits) <$> hashes) hash_bits
    = combine_hashes_hash_majority hashes hash_bits.
Proof.
  intros Hb. split; [by apply combine_bound|].
  destruct (decide (hashes = [])) as [->|Hne]; [done|].
  assert ((λ h, h `mod` 2 ^ hash_bits) <$> hashes ≠ []) as Hne'.
  { by destruct hashes. }
  apply Z.bits_inj'. intros j Hj. rewrite !combine_bits by done.
  destruct (decide (j < hash_bits)) as [Hlt|Hge].
  - by rewrite votes_mod, length_fmap by lia.
  - by rewrite (bool_decide_false _ Hge).
Qed.

Lemma combine_range_witness :
  0 ≤ combine_hashes_hash_majority [-1; 2 ^ 70; 5] 64 < 2 ^ 64
  ∧ combine_hashes_hash_majority ((λ h, h `mod` 2 ^ 64) <$> [-1; 2 ^ 70; 5]) 64
    = combine_hashes_hash_majority [-1; 2 ^ 70; 5] 64.
Proof. apply (combine_range [-1; 2 ^ 70; 5] 64). lia. Defined.

Lemma votes_Permutation (hashes hashes' : list Z) (j : Z) :
  hashes ≡ₚ hashes' → votes hashes j = votes hashes' j.
Proof. intros Hp. unfold votes. by rewrite Hp. Qed.

(** X2. The combined hash does not depend on the order of the frame hashes. *)
Theorem combine_Permutation (hashes hashes' : list Z) (hash_bits : Z) :
  hashes ≡ₚ hashes' →
  combine_hashes_hash_majority hashes hash_bits
  = combine_hashes_hash_majority hashes' hash_bits.
Proof.
  intros Hp. destruct (decide (hashes = [])) as [->|Hne].
  - by apply Permutation_nil_l in Hp as ->.
  - assert (hashes' ≠ []) as Hne'.
    { intros ->. by apply Permutation_nil_r in Hp. }
    apply Z.bits_inj'. intros j Hj.
    rewrite !combine_bits by done.
    by rewrite (votes_Permutation _ _ j Hp), (Permutation_length Hp).
Qed.

Lemma combine_Permutation_witness :
  combine_hashes_hash_majority [12; 10; 9] 4 = combine_hashes_hash_majority [9; 12; 10] 4.
Proof.
  apply (combine_Permutation [12; 10; 9] [9; 12; 10] 4).
  symmetry. apply (Permutation_cons_append [12; 10] 9).
Defined.

Lemma votes_replicate (n : nat) (h j : Z) :
  votes (replicate n h) j = if Z.testbit h j then Z.of_nat n else 0.
Proof.
  unfold votes. induction n as [|n IH]; simpl replicate.
  - by destruct (Z.testbit h j).
  - rewrite filter_cons. destruct (Z.testbit h j) eqn:Hb.
    + rewrite decide_True by done. simpl length. lia.
    + rewrite decide_False by done. done.
Qed.

Lemma combine_replicate (n : nat) (h hash_bits : Z) :
  0 ≤ hash_bits →
  combine_hashes_hash_majority (replicate (S n) h) hash_bits = h `mod` 2 ^ hash_bits.
Proof.
  intros Hb. apply Z.bits_inj'. intros j Hj.
  rewrite combine_bits by done.
  rewrite votes_replicate, length_replicate.
  destruct (decide (j < hash_bits)) as [Hlt|Hge].
  - rewrite (bool_decide_true _ Hlt), Z.mod_pow2_bits_low by lia. simpl.
    destruct (Z.testbit h j).
    + apply bool_decide_eq_true. lia.
    + apply bool_decide_eq_false. lia.
  - rewrite (bool_decide_false _ Hge), Z.mod_pow2_bits_high by lia. done.
Qed.

(** X3. Combining a hash that fits the width with itself, once or any number
    of times, returns that hash unchanged. *)
Theorem combine_copies (n : nat) (h hash_bits : Z) :
  0 ≤ h < 2 ^ hash_bits →
  combine_hashes_hash_majority [h] hash_bits = h
  ∧ combine_hashes_hash_majority (replicate (S n) h) hash_bits = h.
Proof.
  intros Hh.
  assert (0 ≤ hash_bits) as Hb.
  { destruct (decide (0 ≤ hash_bits)); [done|]. rewrite Z.pow_neg_r in Hh; lia. }
  split.
  - change [h] with (replicate 1 h).
    rewrite combine_replicate by done. by apply Z.mod_small.
  - rewrite combine_replicate by done. by apply Z.mod_small.
Qed.

Lemma combine_copies_witness :
  combine_hashes_hash_majority [11] 4 = 11
  ∧ combine_hashes_hash_majority (replicate 3 11) 4 = 11.
Proof. apply (combine_copies 2 11 4). lia. Defined.

(** ** More on frame sampling *)

Lemma scaled_seqZ_increasing (step : Z) (k : nat) (m : Z) :
  0 < step → StronglySorted Z.lt ((λ i, i * step) <$> seqZ m (Z.of_nat k)).
Proof.
  intros Hstep. revert m. induction k as [|k IH]; intros m.
  - rewrite seqZ_nil by lia. constructor.
  - rewrite seqZ_cons by lia. rewrite fmap_cons.
    replace (Z.pred (Z.of_nat (S k))) with (Z.of_nat k) by lia.
    constructor; [apply IH|].
    apply Forall_fmap, Forall_forall. intros i Hi%elem_of_seqZ. simpl. nia.
Qed.

(** X4. The sampled indices are strictly increasing, and when the video has
    at least as many frames as are sampled, each of them is the index of a
    frame of the video. *)
Theorem sample_indices_within (T S : Z) :
  0 < S → S ≤ T →
  StronglySorted Z.lt (sample_indices T S)
  ∧ Forall (λ x, 0 ≤ x < T) (sample_indices T S).
Proof.
  intros HS HT. unfold sample_indices. rewrite bool_decide_true by lia.
  assert (1 ≤ T `div` S) as Hq.
  { apply Z.div_le_lower_bound; lia. }
  assert (S * (T `div` S) ≤ T) as Hmul by (apply Z.mul_div_le; lia).
  rewrite Z.max_r by done. split.
  - set (step := T `div` S) in *. clearbody step.
    rewrite <- (Z2Nat.id S) by lia.
    apply scaled_seqZ_increasing. lia.
  - apply Forall_fmap, Forall_forall. intros i Hi%elem_of_seqZ. simpl. nia.
Qed.

Lemma sample_indices_within_witness :
  StronglySorted Z.lt (sample_indices 100 12)
  ∧ Forall (λ x, 0 ≤ x < 100) (sample_indices 100 12).
Proof. apply (sample_indices_within 100 12); lia. Defined.

(** X5. When the video has fewer frames than are sampled, the step is 1 and
    the indices are [0 .. S - 1]: the frame count itself and the indices
    after it are asked for although the video has no such frame. *)
Theorem sample_indices_past_end (T S : Z) :
  0 < T → T < S →
  sample_indices T S = seqZ 0 S ∧ T ∈ sample_indices T S.
Proof.
  intros HT HS. unfold sample_indices. rewrite bool_decide_true by lia.
  rewrite Z.div_small by lia. rewrite Z.max_l by lia.
  assert ((λ i, i * 1) <$> seqZ 0 S = seqZ 0 S) as ->.
  { rewrite <- (list_fmap_id (seqZ 0 S)) at 2. apply list_fmap_ext.
    intros _ i _. simpl. lia. }
  split; [done|]. apply elem_of_seqZ. lia.
Qed.

Lemma sample_indices_past_end_witness :
  sample_indices 3 12 = seqZ 0 12 ∧ 3 ∈ sample_indices 3 12.
Proof. apply (sample_indices_past_end 3 12); lia. Defined.

(** ** More on the video hash *)

Lemma sampled_hashes_nonempty (w : World) (path : Path) (indices : list Z) :
  sampled_hashes w path indices ≠ [] ↔
  ∃ idx, idx ∈ indices ∧ is_Some (cap_read_at w path idx).
Proof.
  unfold sampled_hashes. split.
  - intros Hne. destruct (omap _ indices) as [|h hs] eqn:Ho; [done|].
    assert (h ∈ omap (λ idx, (λ frame, frame_ahash w frame 8) <$> cap_read_at w path idx)
                  indices) as Hin by (rewrite Ho; apply list_elem_of_here).
    apply list_elem_of_omap in Hin as (idx & Hidx & Hsome).
    exists idx. split; [done|]. destruct (cap_read_at w path idx); [by eexists|done].
  - intros (idx & Hidx & [frame Hframe]) Hnil.
    assert (frame_ahash w frame 8 ∈
              omap (λ idx, (λ frame, frame_ahash w frame 8) <$> cap_read_at w path idx)
                indices) as Hin.
    { apply list_elem_of_omap. exists idx. split; [done|]. by rewrite Hframe. }
    rewrite Hnil in Hin. by apply elem_of_nil in Hin.
Qed.

(** X6. A video gets a perceptual hash exactly when OpenCV is imported, the
    capture opens and at least one sampled index decodes; the hash is then a
    64-bit value. *)
Theorem video_perceptual_hash_defined (w : World) (path : Path) (sample_frames : Z) :
  (is_Some (video_perceptual_hash w path sample_frames) ↔
     cv2_imported w = true ∧ cap_isOpened w path = true
     ∧ ∃ idx, idx ∈ sample_indices (cap_frame_count w path) sample_frames
              ∧ is_Some (cap_read_at w path idx))
  ∧ ∀ v, video_perceptual_hash w path sample_frames = Some v → 0 ≤ v < 2 ^ 64.
Proof.
  unfold video_perceptual_hash.
  destruct (cv2_imported w); simpl.
  2: { split; [|done]. split; [by intros [? ?]|by intros [? _]]. }
  destruct (cap_isOpened w path); simpl.
  2: { split; [|done]. split; [by intros [? ?]|by intros (_ & ? & _)]. }
  rewrite <- sampled_hashes_nonempty.
  destruct (sampled_hashes w path _) as [|h hs] eqn:Hs.
  - split; [|done]. split; [by intros [? ?]|by intros (_ & _ & ?)].
  - split.
    + split; [done|]. intros _. by eexists.
    + intros v Hv.
      assert (v = combine_hashes_hash_majority (h :: hs) 64) as -> by congruence.
      by apply combine_bound.
Qed.

Lemma video_perceptual_hash_defined_witness :
  is_Some (video_perceptual_hash example_world "lib/d.mp4" 12).
Proof.
  apply (proj1 (video_perceptual_hash_defined example_world "lib/d.mp4" 12)).
  split; [reflexivity|]. split; [reflexivity|].
  exists 0. split; [apply list_elem_of_here|]. by eexists.
Defined.

Lemma sampled_hashes_same (w : World) (path : Path) (indices : list Z) (h : Z) :
  (∀ idx frame, idx ∈ indices → cap_read_at w path idx = Some frame →
                frame_ahash w frame 8 = h) →
  ∃ n, sampled_hashes w path indices = replicate n h.
Proof.
  unfold sampled_hashes. induction indices as [|idx indices IH]; intros Hsame.
  - by exists 0%nat.
  - destruct IH as [n Hn].
    { intros idx' frame Hin. apply Hsame. by apply list_elem_of_further. }
    csimpl. destruct (cap_read_at w path idx) as [frame|] eqn:Hread; csimpl.
    + exists (S n). rewrite Hn. simpl. f_equal. eapply Hsame; [apply list_elem_of_here|done].
    + by exists n.
Qed.

(** X7. If every sampled frame that decodes has the same frame hash [h], in
    particular if a single frame decodes, a video that gets a hash gets [h]
    cut to 64 bits. *)
Theorem video_perceptual_hash_same_frames (w : World) (path : Path)
    (sample_frames h v : Z) :
  (∀ idx frame, idx ∈ sample_indices (cap_frame_count w path) sample_frames →
                cap_read_at w path idx = Some frame → frame_ahash w frame 8 = h) →
  video_perceptual_hash w path sample_frames = Some v →
  v = h `mod` 2 ^ 64.
Proof.
  intros Hsame. unfold video_perceptual_hash.
  destruct (cv2_imported w); simpl; [|done].
  destruct (cap_isOpened w path); simpl; [|done].
  destruct (sampled_hashes_same w path _ h Hsame) as [n ->].
  destruct n as [|n]; simpl replicate; [done|].
  intros Hv. apply (inj Some) in Hv. rewrite <- Hv.
  by apply (combine_replicate n h 64).
Qed.

Lemma video_perceptual_hash_same_frames_witness :
  video_perceptual_hash example_world "lib/d.mp4" 1
  = Some (frame_ahash example_world (example_frame 0) 8 `mod` 2 ^ 64).
Proof.
  assert (∀ v, video_perceptual_hash example_world "lib/d.mp4" 1 = Some v →
               v = frame_ahash example_world (example_frame 0) 8 `mod` 2 ^ 64) as Hv.
  { intros v.
    apply (video_perceptual_hash_same_frames example_world "lib/d.mp4" 1
             (frame_ahash example_world (example_frame 0) 8) v).
    intros idx frame Hin Hread. vm_compute in Hin.
    apply list_elem_of_singleton in Hin. subst idx.
    vm_compute in Hread. injection Hread as <-. vm_compute. reflexivity. }
  destruct (video_perceptual_hash example_world "lib/d.mp4" 1) as [v|] eqn:Hvh.
  - by rewrite (Hv v eq_refl).
  - vm_compute in Hvh. discriminate.
Defined.

(** ** The key of a video *)

Lemma hex_digit_value_digit (d : Z) : 0 ≤ d < 16 → hex_digit_value (hex_digit d) = d.
Proof.
  intros Hd.
  assert (d = 0 ∨ d = 1 ∨ d = 2 ∨ d = 3 ∨ d = 4 ∨ d = 5 ∨ d = 6 ∨ d = 7 ∨ d = 8 ∨ d = 9
          ∨ d = 10 ∨ d = 11 ∨ d = 12 ∨ d = 13 ∨ d = 14 ∨ d = 15) as Hcases by lia.
  repeat (destruct Hcases as [->|Hcases]; [reflexivity|]). by subst d.
Qed.

Lemma app_String (c : ascii) (s t : string) : String c s +:+ t = String c (s +:+ t).
Proof. reflexivity. Qed.

Lemma string_app_assoc (s1 s2 s3 : string) : (s1 +:+ s2) +:+ s3 = s1 +:+ (s2 +:+ s3).
Proof. induction s1 as [|c s1 IH]; [done|]. by rewrite !app_String, IH. Qed.

Lemma int_16_go_app (s1 s2 : string) (acc : Z) :
  int_16_go (s1 +:+ s2) acc = int_16_go s2 (int_16_go s1 acc).
Proof. revert acc. induction s1 as [|c s1 IH]; intros acc; simpl; [done|]. apply IH. Qed.

Lemma length_app_string (s1 s2 : string) :
  String.length (s1 +:+ s2) = (String.length s1 + String.length s2)%nat.
Proof. induction s1 as [|c s1 IH]; simpl; [done|]. by rewrite IH. Qed.

(** The digits that [hex_go] puts in front of [acc]. *)
Lemma hex_go_digits (fuel : nat) (n : Z) (acc : string) :
  0 ≤ n < 2 ^ Z.of_nat fuel →
  ∃ s, hex_go fuel n acc = s +:+ acc
       ∧ (∀ a, int_16_go s a = a * 16 ^ Z.of_nat (String.length s) + n)
       ∧ (∀ k : nat, n < 16 ^ Z.of_nat k → (String.length s ≤ k)%nat).
Proof.
  revert n acc. induction fuel as [|fuel IH]; intros n acc Hn.
  - assert (n = 0) as -> by (simpl in Hn; lia).
    exists "". simpl. split; [done|]. split; [intros a; lia|intros k _; lia].
  - simpl. case_bool_decide as Hz.
    + subst n. exists "". simpl. split; [done|]. split; [intros a; lia|intros k _; lia].
    + assert (0 ≤ n `div` 16 < 2 ^ Z.of_nat fuel) as Hdiv.
      { split; [apply Z.div_pos; lia|].
        apply Z.div_lt_upper_bound; [lia|].
        rewrite Nat2Z.inj_succ, Z.pow_succ_r in Hn by lia. lia. }
      destruct (IH (n `div` 16) (String (hex_digit (n `mod` 16)) acc) Hdiv)
        as (s & Hs & Hval & Hlen).
      exists (s +:+ String (hex_digit (n `mod` 16)) "").
      split; [|split].
      * by rewrite Hs, string_app_assoc.
      * intros a. rewrite int_16_go_app, Hval. simpl.
        rewrite hex_digit_value_digit by (apply Z.mod_pos_bound; lia).
        rewrite length_app_string. simpl.
        rewrite Nat2Z.inj_add, Z.pow_add_r by lia.
        change (16 ^ Z.of_nat 1) with 16.
        pose proof (Z.div_mod n 16). lia.
      * intros k Hk. rewrite length_app_string. simpl.
        destruct k as [|k]; [simpl in Hk; lia|].
        assert (String.length s ≤ k)%nat; [|lia].
        apply Hlen. apply Z.div_lt_upper_bound; [lia|].
        rewrite Nat2Z.inj_succ, Z.pow_succ_r in Hk by lia. lia.
Qed.

Lemma zfill_value (width : nat) (s : string) : int_16 (zfill width s) = int_16 s.
Proof.
  unfold zfill, int_16. rewrite int_16_go_app. f_equal.
  induction (width - String.length s)%nat as [|k IH]; simpl; [done|]. apply IH.
Qed.

Lemma zfill_length (width : nat) (s : string) :
  String.length (zfill width s) = (width `max` String.length s)%nat.
Proof.
  unfold zfill. rewrite length_app_string.
  assert (∀ k, String.length (String.string_of_list_ascii (replicate k "0"%char)) = k)
    as Hk.
  { induction k as [|k IH]; simpl; [done|]. by rewrite IH. }
  rewrite Hk. lia.
Qed.

Lemma log2_fuel (n : Z) : 0 ≤ n → 0 ≤ n < 2 ^ Z.of_nat (S (Z.to_nat (Z.log2 n))).
Proof.
  intros Hn. split; [done|].
  destruct (decide (n = 0)) as [->|Hne]; [by apply Z.pow_pos_nonneg; lia|].
  pose proof (Z.log2_nonneg n).
  replace (Z.of_nat (S (Z.to_nat (Z.log2 n)))) with (Z.succ (Z.log2 n)) by lia.
  apply Z.log2_spec. lia.
Qed.

(** X8. The 16-digit hexadecimal rendering of a hash loses nothing: reading
    it back gives the hash, so two hashes have the same rendering only if
    they are equal; below [2 ^ 64] the rendering has exactly 16 characters. *)
Theorem format_016x_faithful (n : Z) :
  0 ≤ n →
  int_16 (format_016x n) = n
  ∧ (∀ m, 0 ≤ m → format_016x m = format_016x n → m = n)
  ∧ (n < 2 ^ 64 → String.length (format_016x n) = 16%nat).
Proof.
  assert (Hread : ∀ m, 0 ≤ m → int_16 (format_016x m) = m).
  { intros m Hm. unfold format_016x. rewrite bool_decide_true by done.
    rewrite zfill_value.
    destruct (hex_go_digits _ m "" (log2_fuel m Hm)) as (s & -> & Hval & _).
    unfold int_16. rewrite int_16_go_app. simpl. rewrite Hval. lia. }
  intros Hn. split; [by apply Hread|]. split.
  - intros m Hm Heq. rewrite <- (Hread m Hm), Heq. by apply Hread.
  - intros Hlt. unfold format_016x. rewrite bool_decide_true by done.
    rewrite zfill_length.
    destruct (hex_go_digits _ n "" (log2_fuel n Hn)) as (s & -> & _ & Hlen).
    rewrite length_app_string. simpl.
    specialize (Hlen 16%nat). change (16 ^ Z.of_nat 16) with (2 ^ 64) in Hlen.
    specialize (Hlen Hlt). lia.
Qed.

Lemma format_016x_faithful_witness :
  int_16 (format_016x 48879) = 48879
  ∧ (∀ m, 0 ≤ m → format_016x m = format_016x 48879 → m = 48879)
  ∧ (48879 < 2 ^ 64 → String.length (format_016x 48879) = 16%nat).
Proof. apply (format_016x_faithful 48879). lia. Defined.

Example format_016x_beef : format_016x 48879 = "000000000000beef".
Proof. reflexivity. Qed.

(** ** More on the dispatcher *)

Lemma truthy_Some (o : option string) (fp : string) :
  truthy o = Some fp ↔ o = Some fp ∧ fp ≠ "".
Proof.
  unfold truthy. destruct o as [s|]; [|by split; [|intros [? _]]].
  case_bool_decide as Hs.
  - subst s. split; [done|]. intros [[= <-] Hne]. done.
  - split; [intros [= <-]; done|]. by intros [-> _].
Qed.

(** X9. What a result tells about its file. A result of kind [audio] is only
    given for an audio extension with the audio kind enabled, and its key is
    the non-empty fingerprint of fpcalc; a result of kind [video] only for a
    video extension with the video kind enabled, and its key is [vhash:]
    followed by the 16 hexadecimal digits of the video hash; any other result
    is of kind [fallback] and its key is the digest of the content. *)
Theorem fingerprint_file_result (w : World) (path : Path) (kinds : list string)
    (sample_frames : Z) (r : FingerprintResult) :
  fingerprint_file w path kinds sample_frames = Ok r →
  let ext := str_lower w (path_suffix w path) in
  (kind r = "audio" ∧ ext ∈ AUDIO_EXTS ∧ "audio" ∈ kinds
     ∧ run_fpcalc w path = Some (key r) ∧ key r ≠ "")
  ∨ (kind r = "video" ∧ ext ∈ VIDEO_EXTS ∧ "video" ∈ kinds
     ∧ ∃ v, video_perceptual_hash w path sample_frames = Some v
            ∧ 0 ≤ v < 2 ^ 64
            ∧ key r = "vhash:" +:+ format_016x v
            ∧ String.length (key r) = 22%nat)
  ∨ (kind r = "fallback"
     ∧ ∃ data, read_bytes w path = Some data ∧ key r = sha256_hexdigest w data).
Proof.
  intros Hr ext. unfold fingerprint_file in Hr. fold ext in Hr.
  destruct (bool_decide (ext ∈ AUDIO_EXTS) && bool_decide ("audio" ∈ kinds)) eqn:Ha.
  - destruct (truthy (run_fpcalc w path)) as [fp|] eqn:Hfp.
    + left. injection Hr as <-. simpl.
      apply andb_true_iff in Ha as [Ha1%bool_decide_eq_true Ha2%bool_decide_eq_true].
      apply truthy_Some in Hfp as [Hfp Hne]. done.
    + apply andb_true_iff in Ha as [Ha1%bool_decide_eq_true _].
      rewrite (bool_decide_false (ext ∈ VIDEO_EXTS)) in Hr.
      2: { intros Hv. by apply (audio_video_exts_disjoint ext). }
      simpl in Hr. right. right. unfold sha256_file in Hr.
      destruct (read_bytes w path) as [data|]; simpl in Hr; [|done].
      injection Hr as <-. simpl. split; [done|]. by exists data.
  - destruct (bool_decide (ext ∈ VIDEO_EXTS) && bool_decide ("video" ∈ kinds)) eqn:Hv.
    + destruct (video_perceptual_hash w path sample_frames) as [v|] eqn:Hvh.
      * right. left. injection Hr as <-. simpl.
        apply andb_true_iff in Hv as [Hv1%bool_decide_eq_true Hv2%bool_decide_eq_true].
        split; [done|]. split; [done|]. split; [done|]. exists v.
        assert (0 ≤ v < 2 ^ 64) as Hrange.
        { revert Hvh. unfold video_perceptual_hash.
          destruct (cv2_imported w); simpl; [|done].
          destruct (cap_isOpened w path); simpl; [|done].
          destruct (sampled_hashes w path _) as [|h hs]; [done|].
          intros Hs. apply (inj Some) in Hs. rewrite <- Hs. by apply combine_bound. }
        split; [done|]. split; [done|]. split; [done|].
        unfold format_016x. rewrite bool_decide_true by lia.
        rewrite length_app_string, zfill_length.
        destruct (hex_go_digits _ v "" (log2_fuel v (proj1 Hrange))) as (s & -> & _ & Hlen).
        rewrite length_app_string. simpl.
        specialize (Hlen 16%nat). change (16 ^ Z.of_nat 16) with (2 ^ 64) in Hlen.
        specialize (Hlen (proj2 Hrange)). lia.
      * right. right. unfold sha256_file in Hr.
        destruct (read_bytes w path) as [data|]; simpl in Hr; [|done].
        injection Hr as <-. simpl. split; [done|]. by exists data.
    + right. right. unfold sha256_file in Hr.
      destruct (read_bytes w path) as [data|]; simpl in Hr; [|done].
      injection Hr as <-. simpl. split; [done|]. by exists data.
Qed.

Lemma fingerprint_file_result_witness :
  let r := mkFingerprintResult "video" "vhash:a9aded14a10489a9" "vhash:a9aded14a10489a9" in
  let ext := str_lower example_world (path_suffix example_world "lib/d.mp4") in
  (kind r = "audio" ∧ ext ∈ AUDIO_EXTS ∧ "audio" ∈ ["audio"; "video"]
     ∧ run_fpcalc example_world "lib/d.mp4" = Some (key r) ∧ key r ≠ "")
  ∨ (kind r = "video" ∧ ext ∈ VIDEO_EXTS ∧ "video" ∈ ["audio"; "video"]
     ∧ ∃ v, video_perceptual_hash example_world "lib/d.mp4" 12 = Some v
            ∧ 0 ≤ v < 2 ^ 64
            ∧ key r = "vhash:" +:+ format_016x v
            ∧ String.length (key r) = 22%nat)
  ∨ (kind r = "fallback"
     ∧ ∃ data, read_bytes example_world "lib/d.mp4" = Some data
               ∧ key r = sha256_hexdigest example_world data).
Proof.
  intros r.
  apply (fingerprint_file_result example_world "lib/d.mp4" ["audio"; "video"] 12 r).
  vm_compute. reflexivity.
Defined.

(** X11. When fpcalc gives nothing for a file with an audio extension, the
    file is never tried as a video, whatever the enabled kinds: it is
    fingerprinted by the digest of its content, and the call raises if the
    content cannot be read. *)
Theorem fingerprint_file_audio_falls_back (w : World) (path : Path)
    (kinds : list string) (sample_frames : Z) :
  str_lower w (path_suffix w path) ∈ AUDIO_EXTS →
  run_fpcalc w path = None ∨ run_fpcalc w path = Some "" →
  fingerprint_file w path kinds sample_frames =
    try! fallback ← sha256_file w path;
    Ok (mkFingerprintResult "fallback" fallback
          ("sha256:" +:+ String.substring 0 12 fallback +:+ "...")).
Proof.
  intros Hext Hfp. unfold fingerprint_file.
  rewrite (bool_decide_false (_ ∈ VIDEO_EXTS)).
  2: { intros Hv. by apply (audio_video_exts_disjoint _ Hv). }
  simpl. assert (truthy (run_fpcalc w path) = None) as Ht.
  { by destruct Hfp as [-> | ->]. }
  rewrite Ht. by destruct (_ && _).
Qed.

Lemma fingerprint_file_audio_falls_back_witness :
  fingerprint_file example_world "lib/z.ogg" ["audio"; "video"] 12 =
    try! fallback ← sha256_file example_world "lib/z.ogg";
    Ok (mkFingerprintResult "fallback" fallback
          ("sha256:" +:+ String.substring 0 12 fallback +:+ "...")).
Proof.
  apply (fingerprint_file_audio_falls_back example_world "lib/z.ogg" ["audio"; "video"] 12).
  - refine (bool_decide_unpack _ _). vm_compute. exact I.
  - left. reflexivity.
Defined.

(** X12. A file whose extension is neither an audio nor a video extension, or
    any file when neither kind is enabled, is fingerprinted by the digest of
    its content: neither fpcalc nor OpenCV decides its key. *)
Theorem fingerprint_file_plain (w : World) (path : Path) (kinds : list string)
    (sample_frames : Z) :
  ((str_lower w (path_suffix w path) ∉ AUDIO_EXTS)
   ∧ (str_lower w (path_suffix w path) ∉ VIDEO_EXTS))
  ∨ (("audio" ∉ kinds) ∧ ("video" ∉ kinds)) →
  fingerprint_file w path kinds sample_frames =
    try! fallback ← sha256_file w path;
    Ok (mkFingerprintResult "fallback" fallback
          ("sha256:" +:+ String.substring 0 12 fallback +:+ "...")).
Proof.
  intros H. unfold fingerprint_file.
  destruct H as [[Ha Hv]|[Ha Hv]].
  - by rewrite (bool_decide_false _ Ha), (bool_decide_false _ Hv).
  - rewrite (bool_decide_false _ Ha), (bool_decide_false _ Hv).
    by rewrite !andb_false_r.
Qed.

Lemma fingerprint_file_plain_witness :
  fingerprint_file example_world "lib/e.bin" ["audio"; "video"] 12 =
    try! fallback ← sha256_file example_world "lib/e.bin";
    Ok (mkFingerprintResult "fallback" fallback
          ("sha256:" +:+ String.substring 0 12 fallback +:+ "...")).
Proof.
  apply (fingerprint_file_plain example_world "lib/e.bin" ["audio"; "video"] 12).
  left. split; refine (bool_decide_unpack _ _); vm_compute; exact I.
Defined.

(** ** More on the grouping engine *)

Lemma elem_of_fingerprint_all (w : World) (files : list Path) (kinds : list string)
    (sample_frames : Z) (items : list Item) (p : Path) (fp : FingerprintResult) :
  fingerprint_all w files kinds sample_frames = Ok items →
  (p, fp) ∈ items ↔ p ∈ files ∧ fingerprint_file w p kinds sample_frames = Ok fp.
Proof.
  intros [Hpaths Hall]%fingerprint_all_paths. rewrite Forall_forall in Hall. split.
  - intros Hin. split.
    + rewrite <- Hpaths. by apply (list_elem_of_fmap_2 fst items (p, fp)).
    + by apply (Hall (p, fp)).
  - intros [Hin Hfp]. rewrite <- Hpaths in Hin.
    apply list_elem_of_fmap in Hin as ([q fq] & -> & Hin). simpl in *.
    apply Hall in Hin as Hq. simpl in Hq. rewrite Hq in Hfp.
    by injection Hfp as <-.
Qed.

Lemma two_in_filter (P : Item → Prop) `{∀ x, Decision (P x)} (l : list Item) :
  NoDup l.*1 →
  (2 ≤ length (filter P l))%nat ↔
  ∃ a b, a ∈ l ∧ b ∈ l ∧ a.1 ≠ b.1 ∧ P a ∧ P b.
Proof.
  intros Hnd.
  assert (NoDup (filter P l).*1) as Hnd'.
  { apply (sublist_NoDup _ _ Hnd). apply fmap_sublist, sublist_filter. }
  split.
  - intros Hlen. destruct (filter P l) as [|a [|b r]] eqn:Hf; simpl in Hlen; [lia..|].
    assert (a ∈ filter P l ∧ b ∈ filter P l) as [Ha Hb].
    { rewrite Hf. split; [apply list_elem_of_here|apply list_elem_of_further, list_elem_of_here]. }
    apply list_elem_of_filter in Ha as [HPa Ha]. apply list_elem_of_filter in Hb as [HPb Hb].
    exists a, b. repeat split; try done.
    rewrite !fmap_cons in Hnd'. apply NoDup_cons in Hnd' as [Hab _].
    intros Heq. apply Hab. rewrite Heq. apply list_elem_of_here.
  - intros (a & b & Ha & Hb & Hab & HPa & HPb).
    assert ([a; b] ⊆+ filter P l) as Hsub.
    { apply NoDup_submseteq.
      - apply NoDup_cons. split; [|apply NoDup_singleton].
        intros ->%list_elem_of_singleton. done.
      - intros x [->|[->|[]%elem_of_nil]%elem_of_cons]%elem_of_cons;
          by apply list_elem_of_filter. }
    apply submseteq_length in Hsub. simpl in Hsub. lia.
Qed.

(** X13. Among pairwise distinct files that all get a fingerprint, a file is
    listed in a duplicate group exactly when another file of the list has
    the same fingerprint key. *)
Theorem find_duplicates_lists_shared_keys (w : World) (files : list Path)
    (kinds : list string) (sample_frames : Z) (items : list Item) :
  NoDup files →
  fingerprint_all w files kinds sample_frames = Ok items →
  ∃ dupes, find_duplicates w files kinds sample_frames = Ok dupes
    ∧ ∀ p fp,
        (∃ k v, (k, v) ∈ dupes ∧ (p, fp) ∈ v) ↔
        p ∈ files ∧ fingerprint_file w p kinds sample_frames = Ok fp
        ∧ ∃ q fq, q ∈ files ∧ q ≠ p
                  ∧ fingerprint_file w q kinds sample_frames = Ok fq
                  ∧ key fq = key fp.
Proof.
  intros Hnd Hitems. rewrite find_duplicates_items, Hitems. simpl.
  eexists. split; [done|]. intros p fp.
  pose proof (fingerprint_all_paths _ _ _ _ _ Hitems) as [Hpaths _].
  assert (NoDup items.*1) as Hndi by (by rewrite Hpaths).
  split.
  - intros (k & v & Hkv & Hin).
    apply list_elem_of_filter in Hkv as [Hlen Hkv]. simpl in Hlen.
    apply group_items_elem in Hkv as [-> _].
    apply list_elem_of_filter in Hin as Hp. destruct Hp as [Hk Hp]. simpl in Hk.
    apply (elem_of_fingerprint_all _ _ _ _ _ _ _ Hitems) in Hp as [Hpf Hfp].
    split; [done|]. split; [done|].
    apply (two_in_filter _ _ Hndi) in Hlen as ([a fa] & [b fb] & Ha & Hb & Hab & HPa & HPb).
    simpl in *.
    apply (elem_of_fingerprint_all _ _ _ _ _ _ _ Hitems) in Ha as [Ha Hfa].
    apply (elem_of_fingerprint_all _ _ _ _ _ _ _ Hitems) in Hb as [Hb Hfb].
    destruct (decide (a = p)) as [->|Hap].
    + exists b, fb. repeat split; try done; congruence.
    + exists a, fa. repeat split; try done; congruence.
  - intros (Hp & Hfp & q & fq & Hq & Hqp & Hfq & Hkey).
    exists (key fp), (items_with_key (key fp) items).
    assert ((p, fp) ∈ items) as Hpi by (by apply (elem_of_fingerprint_all _ _ _ _ _ _ _ Hitems)).
    assert ((q, fq) ∈ items) as Hqi by (by apply (elem_of_fingerprint_all _ _ _ _ _ _ _ Hitems)).
    assert ((p, fp) ∈ items_with_key (key fp) items) as Hpk by (by apply list_elem_of_filter).
    split; [|done]. apply list_elem_of_filter. simpl.
    assert (2 ≤ length (items_with_key (key fp) items))%nat as Hlen.
    { apply (two_in_filter _ _ Hndi). exists (p, fp), (q, fq). simpl.
      repeat split; try done; congruence. }
    split; [lia|]. apply group_items_elem. split; [done|].
    intros Hnil. rewrite Hnil in Hpk. by apply elem_of_nil in Hpk.
Qed.

Lemma find_duplicates_lists_shared_keys_witness :
  let files := ["lib/a.mp3"; "lib/d.mp4"; "lib/b.MP3"] in
  let kinds := ["audio"; "video"] in
  ∃ dupes, find_duplicates example_world files kinds 12 = Ok dupes
    ∧ ∀ p fp,
        (∃ k v, (k, v) ∈ dupes ∧ (p, fp) ∈ v) ↔
        p ∈ files ∧ fingerprint_file example_world p kinds 12 = Ok fp
        ∧ ∃ q fq, q ∈ files ∧ q ≠ p
                  ∧ fingerprint_file example_world q kinds 12 = Ok fq
                  ∧ key fq = key fp.
Proof.
  intros files kinds.
  eapply (find_duplicates_lists_shared_keys example_world files kinds 12).
  - refine (bool_decide_unpack _ _). vm_compute. exact I.
  - vm_compute. reflexivity.
Defined.

Lemma first_seen_groups (items : list Item) (groups : Groups) :
  (group_items items groups).*1 =
    groups.*1 ++ filter (λ k, k ∉ groups.*1) (first_seen ((key ∘ snd) <$> items)).
Proof.
  revert groups. induction items as [|it items IH]; intros groups.
  - simpl. by rewrite app_nil_r.
  - change (group_items (it :: items) groups)
      with (group_items items (groups_append groups (key it.2) it)).
    rewrite IH, keys_groups_append, fmap_cons. simpl first_seen.
    rewrite filter_cons. simpl.
    destruct (bool_decide (key it.2 ∈ groups.*1)) eqn:Hb.
    + apply bool_decide_eq_true in Hb.
      destruct (decide (key it.2 ∉ groups.*1)) as [Hn|_]; [done|].
      f_equal. rewrite list_filter_filter. apply list_filter_iff.
      intros x. simpl. split; [|by intros [? ?]]. intros Hx. split; [done|]. congruence.
    + apply bool_decide_eq_false in Hb.
      destruct (decide (key it.2 ∉ groups.*1)) as [_|Hn]; [|done].
      rewrite <- app_assoc. simpl. do 2 f_equal.
      rewrite list_filter_filter. apply list_filter_iff.
      intros x. simpl. rewrite elem_of_app, list_elem_of_singleton. tauto.
Qed.

Lemma filter_all {A : Type} (P : A → Prop) `{∀ x, Decision (P x)} (l : list A) :
  (∀ x, P x) → filter P l = l.
Proof.
  intros HP. induction l as [|x l IH]; [done|].
  rewrite filter_cons, decide_True by done. by rewrite IH.
Qed.

Lemma omap_fmap_Some {A B C : Type} (f : B → option C) (g : A → B) (h : A → C)
    (l : list A) :
  (∀ x, f (g x) = Some (h x)) → omap f (g <$> l) = h <$> l.
Proof.
  intros Hfg. induction l as [|x l IH]; [done|].
  rewrite !fmap_cons. csimpl. by rewrite Hfg, IH.
Qed.

Lemma json_payload_hashes (root : Path) (no_recurse : bool) (dupes : Groups) :
  json_duplicate_hashes (json_payload root no_recurse dupes) = dupes.*1.
Proof.
  change (json_duplicate_hashes (json_payload root no_recurse dupes))
    with (omap (λ g, json_get "hash" g ≫= json_string) (group_json <$> dupes)).
  by apply omap_fmap_Some.
Qed.

Lemma json_payload_paths (root : Path) (no_recurse : bool) (dupes : Groups) :
  json_duplicate_paths (json_payload root no_recurse dupes) = (λ kv, kv.2.*1) <$> dupes.
Proof.
  change (json_duplicate_paths (json_payload root no_recurse dupes))
    with (omap (λ g, match json_get "items" g with
                     | Some (JList its) =>
                       Some (omap (λ it, json_get "path" it ≫= json_string) its)
                     | _ => None
                     end) (group_json <$> dupes)).
  apply omap_fmap_Some. intros [k v].
  change (Some (omap (λ it, json_get "path" it ≫= json_string) (item_json <$> v))
          = Some (v.*1)).
  f_equal. by apply omap_fmap_Some.
Qed.

(** X14. When every file gets a fingerprint, the dictionary returned by
    [find_duplicates] lists the duplicate keys in the order in which they
    first appear in the file list. The payload of lines 205-222 lists its
    [duplicates] in that same order, and the paths of each group in the
    order of the file list; this is the payload that [main] prints with
    [--json] when the traversal found these files. *)
Theorem find_duplicates_first_seen_order (w : World) (files : list Path)
    (kinds : list string) (sample_frames : Z) (items : list Item) :
  fingerprint_all w files kinds sample_frames = Ok items →
  let order :=
    filter (λ k, (1 < length (items_with_key k items))%nat)
           (first_seen ((key ∘ snd) <$> items)) in
  ∃ dupes, find_duplicates w files kinds sample_frames = Ok dupes
    ∧ dupes.*1 = order
    ∧ (∀ root no_recurse,
         json_duplicate_hashes (json_payload root no_recurse dupes) = order
         ∧ json_duplicate_paths (json_payload root no_recurse dupes)
           = (λ k, (items_with_key k items).*1) <$> order)
    ∧ (∀ args,
         cv2_imported w = true → arg_json args = true →
         arg_kinds args = kinds → arg_sample_frames args = sample_frames →
         find_files w (arg_root args) (negb (arg_no_recurse args)) kinds
           (arg_custom_exts args) = files →
         files ≠ [] →
         ∃ payload, main w args = Returned (Json payload) 0
           ∧ json_duplicate_hashes payload = order
           ∧ json_duplicate_paths payload
             = (λ k, (items_with_key k items).*1) <$> order).
Proof.
  intros Hitems order. rewrite find_duplicates_items, Hitems. simpl.
  eexists. split; [done|].
  assert (Horder : dupe_keys items = order).
  { unfold dupe_keys, order. rewrite first_seen_groups. simpl. f_equal.
    apply filter_all. intros k. apply not_elem_of_nil. }
  assert (Hkeys :
    (filter (λ kv : string * list Item, (1 < length kv.2)%nat) (group_items items [])).*1
    = order).
  { rewrite dupes_shape, <- list_fmap_compose.
    rewrite (list_fmap_ext _ id (dupe_keys items)) by done.
    by rewrite list_fmap_id. }
  assert (Hpaths :
    (λ kv : string * list Item, kv.2.*1)
      <$> filter (λ kv : string * list Item, (1 < length kv.2)%nat) (group_items items [])
    = (λ k, (items_with_key k items).*1) <$> order).
  { rewrite dupes_shape, <- list_fmap_compose, Horder. by apply list_fmap_ext. }
  split; [done|]. split.
  - intros root no_recurse. by rewrite json_payload_hashes, json_payload_paths.
  - intros args Hcv Hjson Hkinds Hsf Hfiles Hne.
    unfold main. rewrite Hcv, Hkinds, Hsf, Hfiles, Hjson. simpl.
    destruct files as [|f files']; [done|].
    rewrite find_duplicates_items, Hitems. simpl.
    eexists. split; [done|]. by rewrite json_payload_hashes, json_payload_paths.
Qed.

Lemma find_duplicates_first_seen_order_witness :
  let audio := mkFingerprintResult "audio" "AQADtEmS" "fpcalc:8chars" in
  let fallback := mkFingerprintResult "fallback" "digest:abc" "sha256:digest:abc..." in
  let files := ["lib/e.bin"; "lib/b.MP3"; "lib/c.mp4"; "lib/a.mp3"] in
  let items := [("lib/e.bin", fallback); ("lib/b.MP3", audio);
                ("lib/c.mp4", fallback); ("lib/a.mp3", audio)] in
  let order :=
    filter (λ k, (1 < length (items_with_key k items))%nat)
           (first_seen ((key ∘ snd) <$> items)) in
  ∃ dupes,
    find_duplicates example_world files ["audio"; "video"] 12 = Ok dupes
    ∧ dupes.*1 = order
    ∧ (∀ root no_recurse,
         json_duplicate_hashes (json_payload root no_recurse dupes) = order
         ∧ json_duplicate_paths (json_payload root no_recurse dupes)
           = (λ k, (items_with_key k items).*1) <$> order)
    ∧ (∀ args,
         cv2_imported example_world = true → arg_json args = true →
         arg_kinds args = ["audio"; "video"] → arg_sample_frames args = 12 →
         find_files example_world (arg_root args) (negb (arg_no_recurse args))
           ["audio"; "video"] (arg_custom_exts args) = files →
         files ≠ [] →
         ∃ payload, main example_world args = Returned (Json payload) 0
           ∧ json_duplicate_hashes payload = order
           ∧ json_duplicate_paths payload
             = (λ k, (items_with_key k items).*1) <$> order).
Proof.
  intros audio fallback files items.
  apply (find_duplicates_first_seen_order example_world files ["audio"; "video"] 12 items).
  vm_compute. reflexivity.
Defined.

Example json_order_reversed_listing :
  ∃ payload,
    main example_world_reversed (mkArgs "lib" false ["audio"; "video"] ["bin"] 12 true)
      = Returned (Json payload) 0
    ∧ json_duplicate_hashes payload = ["digest:abc"; "AQADtEmS"]
    ∧ json_duplicate_paths payload
      = [["lib/e.bin"; "lib/c.mp4"]; ["lib/b.MP3"; "lib/a.mp3"]].
Proof. eexists. split; [vm_compute; reflexivity|]. split; vm_compute; reflexivity. Qed.

Example first_seen_keys :
  first_seen ["digest:abc"; "AQADtEmS"; "digest:abc"; "AQADtEmS"; "x"]
  = ["digest:abc"; "AQADtEmS"; "x"].
Proof. vm_compute. reflexivity. Qed.

(** ** More on the text report *)

Section sorted_order.
Context {A : Type} (sort_key : A → string).

Local Abbreviation key_le := (λ a b : A, String.le (sort_key a) (sort_key b)).

Lemma sorted_insert_StronglySorted (x : A) (l : list A) :
  StronglySorted key_le l → StronglySorted key_le (sorted_insert sort_key x l).
Proof.
  induction 1 as [|y l Hl IH Hy]; simpl.
  - repeat constructor.
  - destruct (String.leb (sort_key x) (sort_key y)) eqn:Hxy.
    + constructor; [by constructor|]. constructor; [by apply Is_true_true|].
      eapply Forall_impl; [exact Hy|]. intros z Hz. simpl in *.
      etrans; [|exact Hz]. by apply Is_true_true.
    + constructor; [done|].
      rewrite (sorted_insert_Permutation sort_key x l). constructor; [|done].
      apply Is_true_true. by apply leb_flip.
Qed.

Lemma sorted_StronglySorted (l : list A) : StronglySorted key_le (sorted sort_key l).
Proof.
  induction l as [|x l IH]; simpl; [constructor|]. by apply sorted_insert_StronglySorted.
Qed.
End sorted_order.

(** X16. [format_report] prints the groups in ascending order of their keys
    and, in each group, the entries in ascending order of their paths; the
    printed groups and entries are those of the dictionary, none dropped and
    none repeated. *)
Theorem format_report_ascending (dupes : Groups) :
  format_report dupes =
    String.concat newline
      (mjoin ((λ kv, ("hash=" +:+ kv.1 +:+ " (x" +:+ str_nat (length kv.2) +:+ ")")
                       :: (item_line <$> kv.2)) <$> report_entries dupes))
  ∧ StronglySorted (λ a b, String.le a.1 b.1) (report_entries dupes)
  ∧ Forall (λ kv, StronglySorted (λ a b : Item, String.le a.1 b.1) kv.2)
      (report_entries dupes)
  ∧ Forall2 (λ kv kv', kv.1 = kv'.1 ∧ kv.2 ≡ₚ kv'.2)
      (report_entries dupes) (sorted fst dupes)
  ∧ sorted fst dupes ≡ₚ dupes.
Proof.
  unfold report_entries. split; [|split; [|split; [|split]]].
  - unfold format_report. do 2 f_equal. rewrite <- list_fmap_compose.
    apply list_fmap_ext. intros _ [k v] _. unfold group_lines. simpl.
    by rewrite (Permutation_length (sorted_Permutation fst v)).
  - pose proof (sorted_StronglySorted fst dupes) as Hs.
    induction Hs as [|kv l Hl IH Hkv]; [constructor|].
    rewrite fmap_cons. constructor; [done|].
    apply Forall_fmap. eapply Forall_impl; [exact Hkv|]. by intros [k v].
  - apply Forall_fmap, Forall_forall. intros [k v] _. simpl.
    apply (sorted_StronglySorted fst v).
  - apply Forall2_fmap_l, Forall_Forall2_diag, Forall_forall. intros [k v] _. simpl.
    split; [done|]. apply sorted_Permutation.
  - apply sorted_Permutation.
Qed.

(** ** More on the file finder *)

(** X17. [find_files] keeps the order of the traversal and returns regular
    files only; as soon as a kind is enabled or a custom extension is given,
    every file it returns has an allowed extension. *)
Theorem find_files_sound (w : World) (root : Path) (recurse : bool)
    (kinds custom_exts : list string) :
  find_files w root recurse kinds custom_exts `sublist_of` _iter_files w root recurse
  ∧ Forall (λ p, is_file w p = true) (find_files w root recurse kinds custom_exts)
  ∧ ("audio" ∈ kinds ∨ "video" ∈ kinds ∨ custom_exts ≠ [] →
     Forall (λ p, str_lower w (path_suffix w p) ∈ allowed_exts w kinds custom_exts)
       (find_files w root recurse kinds custom_exts)).
Proof.
  unfold find_files. split; [apply sublist_filter|]. split.
  - apply Forall_forall. by intros p [[? _] _]%list_elem_of_filter.
  - intros Hsome.
    assert (∃ e, e ∈ allowed_exts w kinds custom_exts) as [e He].
    { unfold allowed_exts. destruct Hsome as [Ha|[Hv|Hc]].
      - exists ".mp3". rewrite (bool_decide_true _ Ha).
        apply elem_of_union_l. destruct (bool_decide ("video" ∈ kinds)).
        + apply elem_of_union_l, elem_of_union_r. unfold AUDIO_EXTS.
          apply elem_of_union_l. do 5 apply elem_of_union_l.
          by apply elem_of_singleton.
        + apply elem_of_union_r. unfold AUDIO_EXTS.
          apply elem_of_union_l. do 5 apply elem_of_union_l.
          by apply elem_of_singleton.
      - exists ".mp4". rewrite (bool_decide_true _ Hv).
        apply elem_of_union_l, elem_of_union_r. unfold VIDEO_EXTS.
        do 7 apply elem_of_union_l. by apply elem_of_singleton.
      - destruct custom_exts as [|c cs]; [done|].
        exists (normalize_ext w c). apply elem_of_union_r.
        rewrite fmap_cons. apply elem_of_list_to_set, list_elem_of_here. }
    apply Forall_forall. intros p [[_ [Hempty|Hin]] _]%list_elem_of_filter; [|done].
    rewrite Hempty in He. by apply not_elem_of_empty in He.
Qed.

Lemma find_files_sound_witness :
  Forall (λ p, str_lower example_world (path_suffix example_world p)
               ∈ allowed_exts example_world ["audio"] [])
    (find_files example_world "lib" true ["audio"] []).
Proof.
  apply (find_files_sound example_world "lib" true ["audio"] []).
  left. apply list_elem_of_here.
Defined.

Example find_files_audio_only :
  find_files example_world "lib" true ["audio"] [] = ["lib/a.mp3"; "lib/b.MP3"].
Proof. vm_compute. reflexivity. Qed.

(** ** More on [sha256_file] *)

Lemma read_chunks_all (fuel n : nat) (rest fed : list Byte.byte) :
  (0 < n)%nat → (length rest < fuel)%nat →
  read_chunks fuel n rest fed = fed ++ rest.
Proof.
  intros Hn. revert rest fed. induction fuel as [|fuel IH]; intros rest fed Hfuel; [lia|].
  simpl. destruct (take n rest) as [|b chunk] eqn:Htake.
  - assert (rest = []) as ->; [|by rewrite app_nil_r].
    destruct rest as [|b rest]; [done|]. destruct n; [lia|done].
  - rewrite IH.
    + by rewrite <- Htake, <- app_assoc, take_drop.
    + rewrite length_drop. destruct rest as [|b' rest]; [by destruct n|]. simpl in *. lia.
Qed.

(** X19. Reading the file in chunks of 1 MiB, as [sha256_file] does it, ends
    at the end of the file and digests exactly its content: the key of the
    fallback is the digest of the whole file, for a file of any size. *)
Theorem sha256_file_chunks (w : World) (path : Path) :
  sha256_file_chunked w path = sha256_file w path
  ∧ ∀ (n : nat) (data : list Byte.byte),
      (0 < n)%nat → read_chunks (S (length data)) n data [] = data.
Proof.
  assert (Hall : ∀ (n : nat) (data : list Byte.byte),
            (0 < n)%nat → read_chunks (S (length data)) n data [] = data).
  { intros n data Hn. rewrite read_chunks_all by lia. done. }
  split; [|done]. unfold sha256_file_chunked, sha256_file.
  destruct (read_bytes w path) as [data|]; [|done].
  rewrite Hall; [done|]. lia.
Qed.

Lemma sha256_file_chunks_witness :
  read_chunks (S (length [Byte.x61; Byte.x62; Byte.x63])) 2 [Byte.x61; Byte.x62; Byte.x63] []
  = [Byte.x61; Byte.x62; Byte.x63].
Proof.
  apply (proj2 (sha256_file_chunks example_world "lib/c.mp4") 2%nat
           [Byte.x61; Byte.x62; Byte.x63]).
  lia.
Defined.

(** X15 applied to three files and their reverse order. *)
Lemma format_report_Permutation_witness :
  ∃ dupes',
    find_duplicates example_world ["lib/b.MP3"; "lib/d.mp4"; "lib/a.mp3"] ["audio"; "video"] 12
      = Ok dupes'
    ∧ format_report
        [("AQADtEmS",
          [("lib/a.mp3", mkFingerprintResult "audio" "AQADtEmS" "fpcalc:8chars");
           ("lib/b.MP3", mkFingerprintResult "audio" "AQADtEmS" "fpcalc:8chars")])]
      = format_report dupes'.
Proof.
  apply (format_report_Permutation example_world
           ["lib/a.mp3"; "lib/d.mp4"; "lib/b.MP3"] ["lib/b.MP3"; "lib/d.mp4"; "lib/a.mp3"]
           ["audio"; "video"] 12).
  - apply (reverse_Permutation ["lib/b.MP3"; "lib/d.mp4"; "lib/a.mp3"]).
  - vm_compute. reflexivity.
Defined.

(** ** [run_fpcalc] *)

Lemma startswith_iff (p s : string) : startswith p s = true ↔ ∃ r, s = p +:+ r.
Proof.
  unfold startswith. revert s. induction p as [|c p IH]; intros s.
  - split; [intros _; by exists s|]. intros _. by destruct s.
  - destruct s as [|c' s]; simpl; [split; [done|by intros [? ?]]|].
    destruct (Ascii.ascii_dec c c') as [->|Hne].
    + rewrite IH. split; intros [r Hr]; exists r.
      * by rewrite app_String, Hr.
      * rewrite app_String in Hr. by injection Hr.
    + split; [done|]. intros [r Hr]. rewrite app_String in Hr. by injection Hr.
Qed.

Lemma first_fingerprint_Some (sh : Fpcalc.Shell) (lines : list string) (fp : string) :
  Fpcalc.first_fingerprint sh lines = Some fp ↔
  ∃ pre rest post,
    lines = pre ++ ("FINGERPRINT=" +:+ rest) :: post
    ∧ Forall (λ l, startswith "FINGERPRINT=" l = false) pre
    ∧ fp = Fpcalc.strip sh rest.
Proof.
  induction lines as [|line lines IH]; simpl.
  - split; [done|]. intros (pre & rest & post & Hl & _). by destruct pre.
  - destruct (startswith "FINGERPRINT=" line) eqn:Hs.
    + apply startswith_iff in Hs as Hr. destruct Hr as [rest ->].
      change (Fpcalc.split_eq_1 ("FINGERPRINT=" +:+ rest)).2 with (Some rest). simpl.
      split.
      * intros [= <-]. exists [], rest, lines. by split.
      * intros (pre & rest' & post & Hl & Hpre & ->).
        destruct pre as [|l pre].
        -- simpl in Hl. injection Hl as Hl _. by apply (inj (String.app _)) in Hl as ->.
        -- simpl in Hl. injection Hl as <- _. apply Forall_cons in Hpre as [Hl _]. congruence.
    + rewrite IH. split.
      * intros (pre & rest & post & -> & Hpre & ->).
        exists (line :: pre), rest, post. split; [done|]. split; [by constructor|done].
      * intros (pre & rest & post & Hl & Hpre & ->).
        destruct pre as [|l pre].
        -- simpl in Hl. injection Hl as -> _.
           assert (startswith "FINGERPRINT=" ("FINGERPRINT=" +:+ rest) = true) as Ht.
           { apply startswith_iff. by exists rest. }
           congruence.
        -- simpl in Hl. injection Hl as <- ->. apply Forall_cons in Hpre as [_ Hpre].
           by exists pre, rest, post.
Qed.

Lemma first_fingerprint_None (sh : Fpcalc.Shell) (lines : list string) :
  Fpcalc.first_fingerprint sh lines = None ↔
  Forall (λ l, startswith "FINGERPRINT=" l = false) lines.
Proof.
  induction lines as [|line lines IH]; simpl; [by split|].
  destruct (startswith "FINGERPRINT=" line) eqn:Hs.
  - split; [done|]. intros [Hl _]%Forall_cons. congruence.
  - rewrite IH. split; [by constructor|]. by intros [_ ?]%Forall_cons.
Qed.

(** X20. The three outcomes of [run_fpcalc]. It returns a fingerprint exactly
    when fpcalc is found on the path, the process completes and its output
    has a line that starts with [FINGERPRINT=]; the fingerprint is what
    follows the first [=] of the first such line, stripped, with any later
    [=] kept. It returns [None] exactly when fpcalc is not found, or the
    process raises [CalledProcessError], or no line of the output starts
    with [FINGERPRINT=]. Any other exception of [subprocess.run] is not
    caught: it escapes from [run_fpcalc]. *)
Theorem run_fpcalc_outcomes (sh : Fpcalc.Shell) (path : Path) (length : Z) :
  let command tool := [tool; "-length"; Fpcalc.str_int sh length; path] in
  (∀ fp, Fpcalc.run_fpcalc sh path length = Fpcalc.Returns (Some fp) ↔
     ∃ tool stdout pre rest post,
       Fpcalc.which sh "fpcalc" = Some tool ∧ tool ≠ ""
       ∧ Fpcalc.subprocess_run sh (command tool) = Fpcalc.Completed stdout
       ∧ Fpcalc.splitlines sh stdout = pre ++ ("FINGERPRINT=" +:+ rest) :: post
       ∧ Forall (λ l, startswith "FINGERPRINT=" l = false) pre
       ∧ fp = Fpcalc.strip sh rest)
  ∧ (Fpcalc.run_fpcalc sh path length = Fpcalc.Returns None ↔
     Fpcalc.which sh "fpcalc" = None ∨ Fpcalc.which sh "fpcalc" = Some ""
     ∨ ∃ tool, Fpcalc.which sh "fpcalc" = Some tool ∧ tool ≠ ""
         ∧ (Fpcalc.subprocess_run sh (command tool) = Fpcalc.CalledProcessError
            ∨ ∃ stdout,
                Fpcalc.subprocess_run sh (command tool) = Fpcalc.Completed stdout
                ∧ Forall (λ l, startswith "FINGERPRINT=" l = false)
                    (Fpcalc.splitlines sh stdout)))
  ∧ (∀ exc, Fpcalc.run_fpcalc sh path length = Fpcalc.Escapes exc ↔
     ∃ tool, Fpcalc.which sh "fpcalc" = Some tool ∧ tool ≠ ""
       ∧ Fpcalc.subprocess_run sh (command tool) = Fpcalc.OtherException exc).
Proof.
  intros command. unfold Fpcalc.run_fpcalc. fold (command).
  destruct (Fpcalc.which sh "fpcalc") as [tool|].
  2: { split; [|split].
       - intros fp. split; [done|]. by intros (? & ? & ? & ? & ? & ? & _).
       - split; [by left|done].
       - intros exc. split; [done|]. by intros (? & ? & _). }
  case_bool_decide as Htool.
  { subst tool. split; [|split].
    - intros fp. split; [done|]. intros (? & ? & ? & ? & ? & [= <-] & ? & _). done.
    - split; [by right; left|done].
    - intros exc. split; [done|]. intros (? & [= <-] & ? & _). done. }
  fold (command tool).
  destruct (Fpcalc.subprocess_run sh (command tool)) as [stdout| |exc0] eqn:Hrun.
  - split; [|split].
    + intros fp. split.
      * intros [= Hfp]. apply first_fingerprint_Some in Hfp
          as (pre & rest & post & Hl & Hpre & ->).
        exists tool, stdout, pre, rest, post. done.
      * intros (tool' & stdout' & pre & rest & post & [= <-] & _ & Hrun' & Hl & Hpre & ->).
        rewrite Hrun in Hrun'. injection Hrun' as <-. f_equal.
        apply first_fingerprint_Some. by exists pre, rest, post.
    + split.
      * intros [= Hnone]. apply first_fingerprint_None in Hnone.
        right; right. exists tool. split; [done|]. split; [done|]. right. by exists stdout.
      * intros [?|[[= ->]|(tool' & [= <-] & _ & [Hrun'|(stdout' & Hrun' & Hall)])]];
          [done|done|congruence|].
        rewrite Hrun in Hrun'. injection Hrun' as <-. f_equal.
        by apply first_fingerprint_None.
    + intros exc. split; [done|]. intros (tool' & [= <-] & _ & Hrun'). congruence.
  - split; [|split].
    + intros fp. split; [done|].
      intros (tool' & ? & ? & ? & ? & [= <-] & _ & Hrun' & _). congruence.
    + split; [|done]. intros _. right; right. exists tool. split; [done|]. split; [done|].
      by left.
    + intros exc. split; [done|]. intros (tool' & [= <-] & _ & Hrun'). congruence.
  - split; [|split].
    + intros fp. split; [done|].
      intros (tool' & ? & ? & ? & ? & [= <-] & _ & Hrun' & _). congruence.
    + split; [done|].
      intros [?|[[= ->]|(tool' & [= <-] & _ & [Hrun'|(stdout' & Hrun' & _)])]];
        [done|done|congruence|congruence].
    + intros exc. split.
      * intros [= <-]. by exists tool.
      * intros (tool' & [= <-] & _ & Hrun'). congruence.
Qed.

Example first_fingerprint_keeps_later_eq :
  Fpcalc.first_fingerprint
    (Fpcalc.mkShell (λ _, None) (λ _, Fpcalc.CalledProcessError) (λ _, []) id (λ _, ""))
    ["DURATION=12"; "FINGERPRINT=AQAD=tE"; "FINGERPRINT=zzz"]
  = Some "AQAD=tE".
Proof. reflexivity. Qed.

Example run_fpcalc_exec_failure_escapes :
  Fpcalc.run_fpcalc
    (Fpcalc.mkShell (λ _, Some "/usr/bin/fpcalc")
       (λ _, Fpcalc.OtherException "PermissionError") (λ _, []) id (λ _, "120"))
    "lib/a.mp3" 120
  = Fpcalc.Escapes "PermissionError".
Proof. reflexivity. Qed.

(** ** More on the frame hasher *)

Lemma row_diff_monotone (g : Z → Z) (row : list Z) :
  (∀ a b, a < b ↔ g a < g b) → row_diff (g <$> row) = row_diff row.
Proof.
  intros Hg. unfold row_diff. rewrite length_fmap, <- fmap_drop, <- fmap_take.
  generalize (drop 1 row) (take (length row - 1) row). intros l.
  induction l as [|x l IH]; intros [|y k]; simpl; [done..|].
  rewrite IH. f_equal. unfold Z.gtb.
  destruct (Z.compare_spec x y) as [->|Hlt|Hgt].
  - by rewrite Z.compare_refl.
  - apply Hg in Hlt. by rewrite (proj2 (Z.compare_lt_iff _ _) Hlt).
  - apply Hg in Hgt. by rewrite (proj2 (Z.compare_gt_iff _ _) Hgt).
Qed.

(** X21. The frame hash only looks at the order of neighbouring pixels: two
    frames whose resized grids differ by a strictly increasing change of the
    intensities (brighter, darker, more contrast) have the same hash. *)
Theorem frame_ahash_monotone (w : World) (frame frame' : Frame) (hash_size : Z)
    (g : Z → Z) :
  (∀ a b, a < b ↔ g a < g b) →
  resize_INTER_AREA w (cvtColor_BGR2GRAY w frame') (hash_size + 1) hash_size
  = (λ row : list Z, g <$> row)
      <$> resize_INTER_AREA w (cvtColor_BGR2GRAY w frame) (hash_size + 1) hash_size →
  frame_ahash w frame' hash_size = frame_ahash w frame hash_size.
Proof.
  intros Hg Hres. unfold frame_ahash. rewrite Hres, <- list_fmap_compose.
  do 2 f_equal. apply list_fmap_ext. intros _ row _. simpl.
  by apply row_diff_monotone.
Qed.

Lemma frame_ahash_monotone_witness :
  frame_ahash example_world [[(12, 12, 12); (10, 10, 10); (16, 16, 16)]] 1
  = frame_ahash example_world [[(5, 5, 5); (4, 4, 4); (7, 7, 7)]] 1.
Proof.
  apply (frame_ahash_monotone example_world
           [[(5, 5, 5); (4, 4, 4); (7, 7, 7)]] [[(12, 12, 12); (10, 10, 10); (16, 16, 16)]]
           1 (λ a, 2 * a + 2)).
  - intros a b. lia.
  - reflexivity.
Defined.

Lemma pack_all_false {A : Type} (f : A → bool) (l : list A) :
  Forall (λ x, f x = false) l → fold_left (pack_step f) l 0 = 0.
Proof.
  induction 1 as [|x l Hx Hl IH]; simpl; [done|].
  unfold pack_step at 2. by rewrite Hx.
Qed.

(** X22. A frame whose resized grid has no pixel brighter than its left
    neighbour, in particular a flat frame, hashes to 0. *)
Theorem frame_ahash_flat (w : World) (frame : Frame) (hash_size : Z) :
  Forall (λ row, ∀ (c : nat) (a b : Z), row !! c = Some a → row !! S c = Some b → b ≤ a)
    (resize_INTER_AREA w (cvtColor_BGR2GRAY w frame) (hash_size + 1) hash_size) →
  frame_ahash w frame hash_size = 0.
Proof.
  intros Hflat. rewrite frame_ahash_pack. unfold pack_msb_first.
  apply pack_all_false. apply Forall_forall. intros bit Hbit. simpl.
  apply list_elem_of_lookup in Hbit as [i Hi].
  apply join_lookup_Some in Hi as (j & bits & i' & Hj & Hi' & _).
  rewrite list_lookup_fmap in Hj.
  destruct (_ !! j) as [row|] eqn:Hrow; simpl in Hj; [|done]. injection Hj as <-.
  rewrite Forall_forall in Hflat.
  specialize (Hflat row (list_elem_of_lookup_2 _ _ _ Hrow)).
  unfold row_diff in Hi'. apply lookup_zip_with_Some in Hi' as (b & a & -> & Hb & Ha).
  rewrite lookup_drop in Hb. apply lookup_take_Some in Ha as [Ha _].
  specialize (Hflat i' a b Ha Hb). unfold Z.gtb.
  destruct (Z.compare_spec b a); try done. exfalso. lia.
Qed.

Lemma frame_ahash_flat_witness :
  frame_ahash example_world
    [[(7, 7, 7); (7, 7, 7); (7, 7, 7)]; [(9, 9, 9); (9, 9, 9); (3, 3, 3)]] 2 = 0.
Proof.
  apply (frame_ahash_flat example_world
           [[(7, 7, 7); (7, 7, 7); (7, 7, 7)]; [(9, 9, 9); (9, 9, 9); (3, 3, 3)]] 2).
  change (Forall (λ row : list Z, ∀ (c : nat) (a b : Z),
                    row !! c = Some a → row !! S c = Some b → b ≤ a)
            [[7; 7; 7]; [9; 9; 3]]).
  repeat constructor.
  - intros [|[|[|c]]] a b Ha Hb; simpl in *; simplify_eq; lia.
  - intros [|[|[|c]]] a b Ha Hb; simpl in *; simplify_eq; lia.
Defined.
